(** * EarClipping: ear-clipping triangulation of a 2D polygon (src/main.cpp)

    A shallow embedding of [main.cpp] and the properties of its
    specification.

    Modelling choices.
    - [float] is IEEE-754 binary32, given by the Standard Library's
      executable [SpecFloat] operations at precision 24 and maximal
      exponent 128 (round to nearest, ties to even).  Every C++ operation
      on [float] is rounded separately (no fused multiply-add, no excess
      precision).
    - [std::vector<Vec2f>] is a [list Vec2f]; [operator[]] is a lookup
      that faults when the index is out of range (undefined behaviour in
      C++), and the faulting source position is recorded.
    - [triangulate] takes its vector by reference, so the model returns
      the vector as it is left next to the triangles.
    - The [int] loop counters range over [Z]; this agrees with the source
      while [vertices.size()] fits an [int].  Converting such a counter, or
      an index below the size, to [size_t] or [unsigned int] keeps its
      value and is not written.  The one conversion that wraps, of
      [i - 1] at [i = 0], is written out. *)

From Stdlib Require Import ZArith Lia Bool.
From Stdlib Require Import Floats.SpecFloat.
From stdpp Require Import base list.

Local Open Scope Z_scope.

(** ** binary32 arithmetic *)

Module F32.

Definition prec : Z := 24.
Definition emax : Z := 128.

Definition float : Type := spec_float.

Definition zero : float := S754_zero false.
Definition add (a b : float) : float := SFadd prec emax a b.
Definition sub (a b : float) : float := SFsub prec emax a b.
Definition mul (a b : float) : float := SFmul prec emax a b.
Definition opp (a : float) : float := SFopp a.

(** [a > b], [a < b] and [a == b] of C++; all are false on a NaN. *)
Definition gt (a b : float) : bool := SFltb b a.
Definition lt (a b : float) : bool := SFltb a b.
Definition eq (a b : float) : bool := SFeqb a b.

(** The binary32 value of an integer literal. *)
Definition of_Z (z : Z) : float := binary_normalize prec emax z 0 false.

Definition is_nan (a : float) : bool :=
  match a with S754_nan => true | _ => false end.

End F32.

Abbreviation float := F32.float.

(** ** The data model *)

Record Vec2f : Type := mkVec2f { x : float; y : float }.

(** [std::array<Vec2f, 3>] *)
Definition Triangle : Type := (Vec2f * Vec2f * Vec2f)%type.

Definition points (t : Triangle) : list Vec2f :=
  let '(a, b, c) := t in [a; b; c].

(** [operator+] and [operator-] on [Vec2f] *)
Definition Vec2f_add (vec1 vec2 : Vec2f) : Vec2f :=
  mkVec2f (F32.add (x vec1) (x vec2)) (F32.add (y vec1) (y vec2)).

Definition Vec2f_sub (vec1 vec2 : Vec2f) : Vec2f :=
  mkVec2f (F32.sub (x vec1) (x vec2)) (F32.sub (y vec1) (y vec2)).

Definition crossProduct (a b : Vec2f) : float :=
  F32.sub (F32.mul (x a) (y b)) (F32.mul (y a) (x b)).

(** ** Vector accesses and their faults *)

(** The places of [main.cpp] that index the vector. *)
Inductive site : Type :=
| ShoelaceCurrent    (* line 28, vertices[i] *)
| ShoelaceNext       (* line 29, vertices[(i + 1) % size] *)
| EarCorner          (* lines 82-84, vertices[prevIndex] and so on *)
| EarPoint           (* line 91, vertices[j] *)
| ScanPrev           (* line 123, vertices[prevIndex] *)
| ScanCurrent        (* line 124, vertices[currentIndex] *)
| ScanNext           (* line 125, vertices[nextIndex] *)
| LastTriangle.      (* line 145, vertices[0], vertices[1], vertices[2] *)

(** The lookups whose index comes out of a [%] by the size, in place or
    passed on to [isEar]. *)
Definition modulo_based (s : site) : bool :=
  match s with
  | ShoelaceNext | ScanPrev | ScanNext | EarCorner => true
  | ShoelaceCurrent | EarPoint | ScanCurrent | LastTriangle => false
  end.

Inductive result (A : Type) : Type :=
| Ok (a : A)
| OutOfRange (s : site)
| OutOfFuel.

Arguments Ok {A} a.
Arguments OutOfRange {A} s.
Arguments OutOfFuel {A}.

Definition bind {A B : Type} (r : result A) (k : A -> result B) : result B :=
  match r with
  | Ok a => k a
  | OutOfRange s => OutOfRange s
  | OutOfFuel => OutOfFuel
  end.

Notation "'do' v <- r ; k" := (bind r (fun v => k))
  (at level 10, v name, r at level 100, k at level 200).
Notation "'do' ' p <- r ; k" := (bind r (fun v => let 'p := v in k))
  (at level 10, p pattern, r at level 100, k at level 200).

(** [vertices[i]] at source position [s] *)
Definition at_ (s : site) (vertices : list Vec2f) (i : Z) : result Vec2f :=
  if (0 <=? i) then
    match vertices !! Z.to_nat i with
    | Some v => Ok v
    | None => OutOfRange s
    end
  else OutOfRange s.

Definition size (vertices : list Vec2f) : Z := Z.of_nat (length vertices).

(** Conversion to [size_t] (64 bits), and the largest [int]. *)
Definition to_size_t (z : Z) : Z := z mod 2 ^ 64.
Definition INT_MAX : Z := 2 ^ 31 - 1.

(** ** isClockwise *)

(** The [for] loop of [isClockwise] with [k] iterations left, at counter
    [i] and accumulator [sum]. *)
Fixpoint isClockwise_loop (vertices : list Vec2f) (k : nat) (i : Z) (sum : float)
  : result float :=
  match k with
  | O => Ok sum
  | S k' =>
      do current <- at_ ShoelaceCurrent vertices i;
      do next <- at_ ShoelaceNext vertices ((i + 1) mod size vertices);
      isClockwise_loop vertices k' (i + 1)
        (F32.add sum (F32.mul (F32.sub (x next) (x current))
                              (F32.add (y next) (y current))))
  end.

Definition isClockwise (vertices : list Vec2f) : result bool :=
  do sum <- isClockwise_loop vertices (length vertices) 0 F32.zero;
  Ok (F32.gt sum F32.zero).

(** ** isConvex *)

Definition isConvex (prev current next : Vec2f) : bool :=
  let prevEdge := Vec2f_sub prev current in
  let nextEdge := Vec2f_sub next current in
  F32.gt (crossProduct prevEdge nextEdge) F32.zero.

(** ** isPointInsideTriangle *)

Definition isPointInsideTriangle (point prev current next : Vec2f) : bool :=
  let prevToCurrent := Vec2f_sub current prev in
  let currentToNext := Vec2f_sub next current in
  let nextToPrev := Vec2f_sub prev next in
  let prevToPoint := Vec2f_sub point prev in
  let currentToPoint := Vec2f_sub point current in
  let nextToPoint := Vec2f_sub point next in
  let alpha := crossProduct prevToCurrent prevToPoint in
  let beta := crossProduct currentToNext currentToPoint in
  let gamma := crossProduct nextToPrev nextToPoint in
  if F32.gt alpha F32.zero || F32.gt beta F32.zero || F32.gt gamma F32.zero
  then false
  else true.

(** ** isEar *)

(** The [for] loop of [isEar] with [k] iterations left, at counter [j]. *)
Fixpoint isEar_loop (vertices : list Vec2f) (prevIndex currentIndex nextIndex : Z)
    (prev current next : Vec2f) (k : nat) (j : Z) : result bool :=
  match k with
  | O => Ok true
  | S k' =>
      if negb (j =? prevIndex) && negb (j =? currentIndex) && negb (j =? nextIndex)
      then
        do point <- at_ EarPoint vertices j;
        if isPointInsideTriangle point prev current next
        then Ok false
        else isEar_loop vertices prevIndex currentIndex nextIndex prev current next k' (j + 1)
      else isEar_loop vertices prevIndex currentIndex nextIndex prev current next k' (j + 1)
  end.

Definition isEar (vertices : list Vec2f) (prevIndex currentIndex nextIndex : Z)
  : result bool :=
  do prev <- at_ EarCorner vertices prevIndex;
  do current <- at_ EarCorner vertices currentIndex;
  do next <- at_ EarCorner vertices nextIndex;
  isEar_loop vertices prevIndex currentIndex nextIndex prev current next
    (length vertices) 0.

(** ** triangulate *)

(** The neighbour indices of the scan.  In
    [(i - 1 + vertices.size()) % vertices.size()] the [int] [i - 1] is
    converted to [size_t] for the addition, which is modulo [2 ^ 64]. *)
Definition prevIndex_of (vertices : list Vec2f) (i : Z) : Z :=
  to_size_t (to_size_t (i - 1) + size vertices) mod size vertices.

Definition nextIndex_of (vertices : list Vec2f) (i : Z) : Z :=
  (i + 1) mod size vertices.

(** One pass of the inner [for] loop with [k] iterations left, at counter
    [i].  [Some (t, vs)] when an ear was clipped ([earFound = true]): the
    triangle pushed and the vector after the [erase]; [None] when the
    loop ran to its end ([earFound = false]). *)
Fixpoint scan (vertices : list Vec2f) (k : nat) (i : Z)
  : result (option (Triangle * list Vec2f)) :=
  match k with
  | O => Ok None
  | S k' =>
      let prevIndex := prevIndex_of vertices i in
      let currentIndex := i in
      let nextIndex := nextIndex_of vertices i in
      do prev <- at_ ScanPrev vertices prevIndex;
      do current <- at_ ScanCurrent vertices currentIndex;
      do next <- at_ ScanNext vertices nextIndex;
      if isConvex prev current next then
        do ear <- isEar vertices prevIndex currentIndex nextIndex;
        if ear
        then Ok (Some ((prev, current, next), delete (Z.to_nat i) vertices))
        else scan vertices k' (i + 1)
      else scan vertices k' (i + 1)
  end.

(** How the [while] loop was left. *)
Inductive loop_exit : Type :=
| SizeReached     (* vertices.size() > 3 failed *)
| NoEarFound.     (* the break after a scan without an ear *)

(** The [while] loop; [fuel] bounds the number of iterations. *)
Fixpoint clip (fuel : nat) (vertices : list Vec2f) (triangles : list Triangle)
  : result (list Vec2f * list Triangle * loop_exit) :=
  if (3 <? size vertices) then
    match fuel with
    | O => OutOfFuel
    | S fuel' =>
        do found <- scan vertices (length vertices) 0;
        match found with
        | Some (t, vertices') => clip fuel' vertices' (triangles ++ [t])
        | None => Ok (vertices, triangles, NoEarFound)
        end
    end
  else Ok (vertices, triangles, SizeReached).

(** [triangulate] up to the end of its [while] loop. *)
Definition clipping (vertices : list Vec2f)
  : result (list Vec2f * list Triangle * loop_exit) :=
  do cw <- isClockwise vertices;
  let vertices := if negb cw then reverse vertices else vertices in
  clip (length vertices) vertices [].

(** [triangulate]: the triangles returned, and the vector as it is left. *)
Definition triangulate (vertices : list Vec2f)
  : result (list Triangle * list Vec2f) :=
  do '(vertices, triangles, _) <- clipping vertices;
  do v0 <- at_ LastTriangle vertices 0;
  do v1 <- at_ LastTriangle vertices 1;
  do v2 <- at_ LastTriangle vertices 2;
  Ok (triangles ++ [(v0, v1, v2)], vertices).

(** ** Notions used to state the properties *)

(** Index [j] holds a vertex other than the three corners, by index, that
    the containment test accepts. *)
Definition blocks (vertices : list Vec2f) (prevIndex currentIndex nextIndex : Z)
    (prev current next : Vec2f) (j : nat) : Prop :=
  Z.of_nat j <> prevIndex /\ Z.of_nat j <> currentIndex /\ Z.of_nat j <> nextIndex /\
  exists point, vertices !! j = Some point /\
                isPointInsideTriangle point prev current next = true.

(** Equal up to the sign of a zero: the same number, or both NaN. *)
Definition same (a b : float) : Prop :=
  a = b \/ exists s s', a = S754_zero s /\ b = S754_zero s'.

(** What one iteration of the loop of [isClockwise] adds to [sum]. *)
Definition edge_term (current next : Vec2f) : float :=
  F32.mul (F32.sub (x next) (x current)) (F32.add (y next) (y current)).

(** The consecutive pairs of a vector, and with the pair that closes the
    polygon: the (current, next) of [isClockwise] in the order of its loop. *)
Fixpoint chain (vertices : list Vec2f) : list (Vec2f * Vec2f) :=
  match vertices with
  | a :: (b :: _) as rest => (a, b) :: chain rest
  | _ => []
  end.

Definition closed_pairs (vertices : list Vec2f) : list (Vec2f * Vec2f) :=
  match vertices, last vertices with
  | first :: _, Some final => chain vertices ++ [(final, first)]
  | _, _ => []
  end.

Definition shoelace_terms (vertices : list Vec2f) : list float :=
  uncurry edge_term <$> closed_pairs vertices.

(** The [float] sum of a list, accumulated from [0.0] on as the loop does. *)
Definition fsum (terms : list float) : float := fold_left F32.add terms F32.zero.

(** The edges [0 .. n-1] of a polygon in the order in which a walk
    through the reversed vector meets them: [n-2, ..., 0], then [n-1]. *)
Definition backward {A : Type} (l : list A) : list A :=
  match reverse l with
  | [] => []
  | final :: others => others ++ [final]
  end.

(** The scan accepts index [i]: its corner is convex and an ear. *)
Definition ear_tip (vertices : list Vec2f) (i : Z) (t : Triangle) : Prop :=
  let '(prev, current, next) := t in
  at_ ScanPrev vertices (prevIndex_of vertices i) = Ok prev /\
  at_ ScanCurrent vertices i = Ok current /\
  at_ ScanNext vertices (nextIndex_of vertices i) = Ok next /\
  isConvex prev current next = true /\
  isEar vertices (prevIndex_of vertices i) i (nextIndex_of vertices i) = Ok true.

(** The state of the [while] loop: the vector and the triangles so far. *)
Definition state : Type := (list Vec2f * list Triangle)%type.

(** One iteration of the [while] loop that clips an ear. *)
Definition clip_step (s s' : state) : Prop :=
  3 < size s.1 /\
  exists t, scan s.1 (length s.1) 0 = Ok (Some (t, s'.1)) /\ s'.2 = s.2 ++ [t].

(** Any number of such iterations. *)
Inductive clips : state -> state -> Prop :=
| clips_here s : clips s s
| clips_next s s' s'' : clip_step s s' -> clips s' s'' -> clips s s''.

(** The vector as the [while] loop first sees it. *)
Definition oriented (vertices : list Vec2f) (cw : bool) : list Vec2f :=
  if negb cw then reverse vertices else vertices.

(** Zero or NaN: a value that is neither positive nor negative. *)
Definition null (a : float) : bool :=
  match a with S754_zero _ | S754_nan => true | _ => false end.

Definition null_vec (v : Vec2f) : bool := null (x v) && null (y v).

(** A point with a NaN coordinate. *)
Definition has_nan (v : Vec2f) : bool := F32.is_nan (x v) || F32.is_nan (y v).

(** ** Test polygons *)

Definition pt (a b : Z) : Vec2f := mkVec2f (F32.of_Z a) (F32.of_Z b).

Definition demo : list Vec2f :=
  [pt (-1) (-1); pt (-2) 1; pt 1 1; pt 0 0; pt 3 (-1)].

Definition square : list Vec2f := [pt 0 0; pt 2 0; pt 2 2; pt 0 2].

(** A convex quadrilateral far up the y axis, where sums round. *)
Definition far_quad : list Vec2f :=
  [pt 0 8388608; pt 1 8388610; pt 2 8388611; pt 3 8388611].

(** Four collinear points: no corner is convex. *)
Definition collinear4 : list Vec2f := [pt 0 0; pt 1 0; pt 2 0; pt 3 0].

(** Collinear points visited out of order, with one spur: the spur is the
    only ear, and what is left after clipping it has none. *)
Definition spur : list Vec2f := [pt 0 0; pt 2 0; pt 3 0; pt 1 0; pt 0 1].

(** A pentagon with a NaN coordinate in one vertex. *)
Definition poisoned : list Vec2f :=
  [pt 0 0; pt 0 2; mkVec2f S754_nan (F32.of_Z 2); pt 2 2; pt 2 0].

(** ** binary32 arithmetic: comparisons against zero *)

Section Comparisons.

Implicit Types a : float.

Lemma eq_zero_not_gt a : F32.eq a F32.zero = true -> F32.gt a F32.zero = false.
Proof. destruct a as [s | s | | s m e]; try destruct s; cbv; congruence. Qed.

Lemma gt_opp a : F32.gt (F32.opp a) F32.zero = F32.lt a F32.zero.
Proof. destruct a as [s | s | | s m e]; try destruct s; reflexivity. Qed.

Lemma gt_lt_zero a :
  F32.eq a F32.zero = false -> F32.is_nan a = false ->
  F32.gt a F32.zero = negb (F32.lt a F32.zero).
Proof. destruct a as [s | s | | s m e]; try destruct s; cbv; congruence. Qed.

Lemma zero_or_nan_not_lt a :
  F32.eq a F32.zero = true \/ F32.is_nan a = true ->
  F32.gt a F32.zero = false /\ F32.lt a F32.zero = false.
Proof.
  destruct a as [s | s | | s m e]; try destruct s; cbv; intros [H | H];
    try discriminate; auto.
Qed.

(** A value is positive, negative, or neither: zero or NaN. *)
Lemma sign_cases a :
  if F32.eq a F32.zero || F32.is_nan a
  then F32.gt a F32.zero = false /\ F32.lt a F32.zero = false
  else F32.lt a F32.zero = negb (F32.gt a F32.zero).
Proof.
  destruct (F32.eq a F32.zero || F32.is_nan a) eqn:Hdeg.
  - apply zero_or_nan_not_lt. apply orb_true_iff, Hdeg.
  - apply orb_false_iff in Hdeg as [Hzero Hnan].
    rewrite (gt_lt_zero _ Hzero Hnan), negb_involutive. reflexivity.
Qed.

End Comparisons.

(** ** binary32 arithmetic: symmetry under negation *)

(** Rounding to nearest is symmetric, so negation commutes with the
    operations, up to the sign of a zero result. *)

#[global] Instance same_equivalence : Equivalence same.
Proof.
  split.
  - intros a. left. reflexivity.
  - intros a b [-> | (s & s' & -> & ->)]; [left | right]; eauto.
  - intros a b c [-> | (s & s' & -> & ->)] [<- | (t & t' & E & ->)];
      try (left; reflexivity); right; eauto.
Qed.

Lemma same_zero s s' : same (S754_zero s) (S754_zero s').
Proof. right. eauto. Qed.

(** Closes [same] goals between values that reduce to equal values or to
    zeros. *)
Ltac same_value := first [reflexivity | apply same_zero].

(** Case analysis on the class of two operands; the goals where an
    operand is not finite are closed by computing on the signs. *)
Ltac by_class a b :=
  destruct a as [?s | ?s | | ?s ?m ?e], b as [?s | ?s | | ?s ?m ?e]; simpl;
  try same_value;
  try match goal with
      | s1 : bool, s2 : bool |- _ => destruct s1, s2; simpl; same_value
      end.

Section FloatSymmetry.

Implicit Types a b c : float.

Lemma round_aux_opp s m e l :
  SFopp (binary_round_aux F32.prec F32.emax s m e l) =
  binary_round_aux F32.prec F32.emax (negb s) m e l.
Proof.
  unfold binary_round_aux.
  destruct (shr_fexp F32.prec F32.emax m e l) as [mrs' e'].
  destruct (shr_fexp F32.prec F32.emax _ e' loc_Exact) as [mrs'' e''].
  destruct (shr_m mrs''); simpl; [reflexivity | | reflexivity].
  destruct (e'' <=? _); reflexivity.
Qed.

Lemma round_opp s m e :
  SFopp (binary_round F32.prec F32.emax s m e) =
  binary_round F32.prec F32.emax (negb s) m e.
Proof.
  unfold binary_round. destruct (shl_align _ _ _) as [mz ez]. apply round_aux_opp.
Qed.

Lemma normalize_opp m e :
  same (binary_normalize F32.prec F32.emax (- m) e false)
       (F32.opp (binary_normalize F32.prec F32.emax m e false)).
Proof.
  destruct m as [| p | p]; simpl; [apply same_zero | |];
    unfold F32.opp; rewrite round_opp; reflexivity.
Qed.

Lemma cond_Zopp_negb s m : cond_Zopp (negb s) m = - cond_Zopp s m.
Proof. destruct s; simpl; lia. Qed.

(** Both finite: the sum of the aligned mantissas changes sign. *)
Ltac by_mantissa :=
  match goal with
  | |- same (binary_normalize _ _ ?m _ _) (SFopp (binary_normalize _ _ ?m' _ _)) =>
      replace m with (- m') by lia; apply normalize_opp
  end.

Lemma add_comm a b : F32.add a b = F32.add b a.
Proof.
  unfold F32.add.
  destruct a as [sa | sa | | sa ma ea], b as [sb | sb | | sb mb eb]; simpl;
    try reflexivity; try (destruct sa, sb; reflexivity).
  rewrite (Z.min_comm eb ea). f_equal. apply Z.add_comm.
Qed.

Lemma sub_swap a b : same (F32.sub a b) (F32.opp (F32.sub b a)).
Proof.
  unfold F32.sub, F32.opp. by_class a b.
  rewrite Z.min_comm. by_mantissa.
Qed.

Lemma add_opp a b : same (F32.add (F32.opp a) (F32.opp b)) (F32.opp (F32.add a b)).
Proof.
  unfold F32.add, F32.opp. by_class a b.
  rewrite !cond_Zopp_negb. by_mantissa.
Qed.

Lemma mul_opp_l a b : F32.mul (F32.opp a) b = F32.opp (F32.mul a b).
Proof.
  unfold F32.mul, F32.opp.
  destruct a as [sa | sa | | sa ma ea], b as [sb | sb | | sb mb eb]; simpl;
    try reflexivity; try (destruct sa, sb; reflexivity).
  rewrite round_aux_opp. destruct sa, sb; reflexivity.
Qed.

Lemma add_zero_l a : same (F32.add F32.zero a) a.
Proof. destruct a as [[|] | | |]; simpl; same_value. Qed.

(** The operations and the comparisons do not tell the zeros apart. *)
#[global] Instance add_proper : Proper (same ==> same ==> same) F32.add.
Proof.
  intros a a' [-> | (s & s' & -> & ->)] b b' [-> | (t & t' & -> & ->)].
  - reflexivity.
  - destruct a' as [sa | sa | | sa ma ea]; simpl; try same_value.
    destruct sa, t, t'; simpl; same_value.
  - destruct b' as [sb | sb | | sb mb eb]; simpl; try same_value.
    destruct sb, s, s'; simpl; same_value.
  - destruct s, s', t, t'; simpl; same_value.
Qed.

#[global] Instance mul_proper_l : Proper (same ==> eq ==> same) F32.mul.
Proof.
  intros a a' [-> | (s & s' & -> & ->)] b _ <-; [reflexivity |].
  destruct b; simpl; same_value.
Qed.

#[global] Instance gt_zero_proper : Proper (same ==> eq) (fun a => F32.gt a F32.zero).
Proof. intros a a' [-> | (s & s' & -> & ->)]; reflexivity. Qed.

#[global] Instance lt_zero_proper : Proper (same ==> eq) (fun a => F32.lt a F32.zero).
Proof. intros a a' [-> | (s & s' & -> & ->)]; reflexivity. Qed.

End FloatSymmetry.

(** ** Lookups *)

Section Lookups.

Implicit Types (vertices : list Vec2f) (s : site) (i : Z).

Lemma at_Ok s vertices i v :
  at_ s vertices i = Ok v <-> 0 <= i /\ vertices !! Z.to_nat i = Some v.
Proof.
  unfold at_. destruct (Z.leb_spec 0 i) as [Hi | Hi].
  - destruct (vertices !! Z.to_nat i) eqn:E; split.
    + intros [= ->]. auto.
    + intros [_ [= ->]]. reflexivity.
    + discriminate.
    + intros [_ [=]].
  - split; [discriminate | lia].
Qed.

Lemma at_in_range s vertices i :
  0 <= i < size vertices -> exists v, at_ s vertices i = Ok v.
Proof.
  intros [H0 H1]. unfold size in H1.
  destruct (lookup_lt_is_Some_2 vertices (Z.to_nat i)) as [v Hv]; [lia |].
  exists v. apply at_Ok. auto.
Qed.

Lemma at_elem_of s vertices i v : at_ s vertices i = Ok v -> v ∈ vertices.
Proof. intros [_ H]%at_Ok. eapply list_elem_of_lookup_2, H. Qed.

Lemma at_not_OutOfFuel s vertices i : at_ s vertices i <> OutOfFuel.
Proof. unfold at_. destruct (0 <=? i); [destruct (_ !! _) |]; discriminate. Qed.

(** The neighbour indices are in range for every non-empty vector. *)
Lemma nextIndex_in_range vertices i :
  0 < size vertices -> 0 <= nextIndex_of vertices i < size vertices.
Proof. intros H. apply Z.mod_pos_bound, H. Qed.

Lemma prevIndex_in_range vertices i :
  0 < size vertices -> 0 <= prevIndex_of vertices i < size vertices.
Proof. intros H. apply Z.mod_pos_bound, H. Qed.

(** They are the cyclic neighbours, when the size fits an [int]. *)
Lemma prevIndex_cyclic vertices i :
  0 <= i < size vertices -> size vertices <= INT_MAX ->
  prevIndex_of vertices i = if i =? 0 then size vertices - 1 else i - 1.
Proof.
  intros Hi Hsize. unfold prevIndex_of, to_size_t, INT_MAX in *.
  change (2 ^ 64) with 18446744073709551616 in *.
  change (2 ^ 31) with 2147483648 in *.
  destruct (Z.eqb_spec i 0) as [-> | Hne].
  - change ((0 - 1) mod 18446744073709551616) with (18446744073709551616 - 1).
    replace (18446744073709551616 - 1 + size vertices)
      with (size vertices - 1 + 1 * 18446744073709551616) by lia.
    rewrite Z.mod_add by lia.
    rewrite (Z.mod_small (size vertices - 1)) by lia.
    apply Z.mod_small. lia.
  - rewrite (Z.mod_small (i - 1)) by lia.
    rewrite (Z.mod_small (i - 1 + size vertices)) by lia.
    replace (i - 1 + size vertices) with (i - 1 + 1 * size vertices) by lia.
    rewrite Z.mod_add by lia. apply Z.mod_small. lia.
Qed.

Lemma nextIndex_cyclic vertices i :
  0 <= i < size vertices ->
  nextIndex_of vertices i = if i + 1 =? size vertices then 0 else i + 1.
Proof.
  intros Hi. unfold nextIndex_of.
  destruct (Z.eqb_spec (i + 1) (size vertices)) as [-> | Hne].
  - apply Z.mod_same. lia.
  - apply Z.mod_small. lia.
Qed.

End Lookups.

(** ** The shoelace sum, forward and over the reversed vector *)

Section ShoelaceSum.

Implicit Types (vertices : list Vec2f) (terms : list float).

Lemma chain_cons a b rest : chain (a :: b :: rest) = (a, b) :: chain (b :: rest).
Proof. reflexivity. Qed.

(** The loop of [isClockwise] adds the terms of the closed pairs. *)
Lemma isClockwise_loop_terms vertices before after first final sum :
  vertices = before ++ after -> after <> [] ->
  head vertices = Some first -> last vertices = Some final ->
  isClockwise_loop vertices (length after) (Z.of_nat (length before)) sum =
  Ok (fold_left F32.add (uncurry edge_term <$> (chain after ++ [(final, first)])) sum).
Proof.
  intros Hvs. revert before sum Hvs.
  induction after as [| c after IH]; intros before sum Hvs Hne Hfirst Hfinal;
    [congruence |].
  assert (Hc : at_ ShoelaceCurrent vertices (Z.of_nat (length before)) = Ok c).
  { apply at_Ok. split; [lia |]. rewrite Nat2Z.id, Hvs.
    rewrite lookup_app_r by lia. rewrite Nat.sub_diag. reflexivity. }
  assert (Hsize : size vertices = Z.of_nat (length before) + 1 + Z.of_nat (length after)).
  { unfold size. rewrite Hvs, length_app. simpl. lia. }
  change (length (c :: after)) with (S (length after)).
  cbn [isClockwise_loop]. rewrite Hc. cbn [bind].
  destruct after as [| d after].
  - assert (Hn : at_ ShoelaceNext vertices
                   ((Z.of_nat (length before) + 1) mod size vertices) = Ok first).
    { rewrite Hsize. simpl. rewrite Z.add_0_r, Z.mod_same by lia.
      apply at_Ok. split; [lia |]. simpl.
      destruct vertices; [discriminate |]. simpl in *. congruence. }
    rewrite Hn. simpl.
    assert (final = c) as ->.
    { rewrite Hvs, last_snoc in Hfinal. congruence. }
    reflexivity.
  - assert (Hn : at_ ShoelaceNext vertices
                   ((Z.of_nat (length before) + 1) mod size vertices) = Ok d).
    { rewrite Z.mod_small by (rewrite Hsize; simpl length; lia).
      apply at_Ok. split; [lia |].
      replace (Z.to_nat (Z.of_nat (length before) + 1)) with (S (length before)) by lia.
      rewrite Hvs, lookup_app_r by lia.
      replace (S (length before) - length before)%nat with 1%nat by lia. reflexivity. }
    rewrite Hn. cbn [bind].
    specialize (IH (before ++ [c])
                  (F32.add sum (F32.mul (F32.sub (x d) (x c)) (F32.add (y d) (y c))))).
    rewrite length_app in IH. simpl length in IH.
    replace (Z.of_nat (length before) + 1) with (Z.of_nat (length before + 1)) by lia.
    change (length (d :: after)) with (S (length after)).
    rewrite IH; [reflexivity | | discriminate | assumption | assumption].
    rewrite Hvs, <- app_assoc. reflexivity.
Qed.

Lemma isClockwise_fsum vertices :
  isClockwise vertices = Ok (F32.gt (fsum (shoelace_terms vertices)) F32.zero).
Proof.
  unfold isClockwise, fsum, shoelace_terms, closed_pairs.
  destruct vertices as [| first rest]; [reflexivity |].
  destruct (last (first :: rest)) as [final |] eqn:Hfinal.
  - rewrite (isClockwise_loop_terms (first :: rest) [] (first :: rest) first final);
      [reflexivity | reflexivity | discriminate | reflexivity | exact Hfinal].
  - apply last_None in Hfinal. discriminate.
Qed.

Lemma isClockwise_Ok vertices : exists cw, isClockwise vertices = Ok cw.
Proof. eexists. apply isClockwise_fsum. Qed.

(** *** The reversed vector *)

Lemma chain_snoc vertices a :
  chain (vertices ++ [a]) =
  chain vertices ++ match last vertices with Some b => [(b, a)] | None => [] end.
Proof.
  induction vertices as [| c [| d rest] IH]; [reflexivity | reflexivity |].
  change (chain ((c :: d :: rest) ++ [a])) with ((c, d) :: chain ((d :: rest) ++ [a])).
  rewrite IH. reflexivity.
Qed.

Lemma chain_reverse vertices :
  chain (reverse vertices) = prod_swap <$> reverse (chain vertices).
Proof.
  induction vertices as [| a [| b rest] IH]; [reflexivity | reflexivity |].
  rewrite reverse_cons, chain_snoc, IH, chain_cons, (reverse_cons (chain _)), fmap_app.
  rewrite reverse_cons, last_snoc. reflexivity.
Qed.

Lemma head_reverse {A} (l : list A) : head (reverse l) = last l.
Proof.
  induction l as [| a l IH] using rev_ind; [reflexivity |].
  rewrite reverse_snoc, last_snoc. reflexivity.
Qed.

Lemma last_reverse {A} (l : list A) : last (reverse l) = head l.
Proof. rewrite <- head_reverse, reverse_involutive. reflexivity. Qed.

Lemma backward_snoc {A} (l : list A) a : backward (l ++ [a]) = reverse l ++ [a].
Proof. unfold backward. rewrite reverse_snoc. reflexivity. Qed.

Lemma backward_fmap {A B} (f : A -> B) (l : list A) :
  backward (f <$> l) = f <$> backward l.
Proof.
  unfold backward. rewrite <- fmap_reverse.
  destruct (reverse l); [reflexivity |]. simpl. rewrite fmap_app. reflexivity.
Qed.

Lemma closed_pairs_reverse vertices :
  closed_pairs (reverse vertices) = prod_swap <$> backward (closed_pairs vertices).
Proof.
  unfold closed_pairs.
  destruct vertices as [| first rest]; [reflexivity |].
  destruct (last (first :: rest)) as [final |] eqn:Hfinal;
    [| apply last_None in Hfinal; discriminate].
  rewrite backward_snoc, fmap_app, <- chain_reverse.
  pose proof (head_reverse (first :: rest)) as Hhead. rewrite Hfinal in Hhead.
  pose proof (last_reverse (first :: rest)) as Hlast. simpl head in Hlast.
  destruct (reverse (first :: rest)) as [| h t]; [discriminate |].
  rewrite Hlast. injection Hhead as ->. reflexivity.
Qed.

Lemma edge_swap current next :
  same (edge_term next current) (F32.opp (edge_term current next)).
Proof.
  unfold edge_term.
  rewrite <- mul_opp_l, (add_comm (y current)), <- sub_swap. reflexivity.
Qed.

Lemma shoelace_terms_reverse vertices :
  Forall2 same (shoelace_terms (reverse vertices))
               (F32.opp <$> backward (shoelace_terms vertices)).
Proof.
  unfold shoelace_terms. rewrite closed_pairs_reverse, backward_fmap.
  induction (backward (closed_pairs vertices)) as [| [c n] l IH]; constructor.
  - apply edge_swap.
  - exact IH.
Qed.

#[local] Instance fold_add_proper :
  Proper (Forall2 same ==> same ==> same) (fold_left F32.add).
Proof.
  intros terms terms' H.
  induction H as [| t t' l l' Ht _ IH]; intros sum sum' Hsum; [exact Hsum |].
  simpl. apply IH. rewrite Ht, Hsum. reflexivity.
Qed.

Lemma fold_opp terms sum :
  same (fold_left F32.add (F32.opp <$> terms) (F32.opp sum))
       (F32.opp (fold_left F32.add terms sum)).
Proof.
  revert sum. induction terms as [| t l IH]; intros sum; [reflexivity |].
  simpl. rewrite <- IH, add_opp. reflexivity.
Qed.

(** The sum over the reversed vector is the negated sum of the edge terms
    of the vector itself, added in the backward order. *)
Lemma fsum_reverse vertices :
  same (fsum (shoelace_terms (reverse vertices)))
       (F32.opp (fsum (backward (shoelace_terms vertices)))).
Proof.
  unfold fsum. rewrite <- fold_opp.
  apply fold_add_proper; [apply shoelace_terms_reverse | apply same_zero].
Qed.

(** What [isClockwise] returns on the reversed vector, in terms of the
    edge terms of the vector itself. *)
Lemma isClockwise_reverse vertices :
  isClockwise (reverse vertices) =
  Ok (F32.lt (fsum (backward (shoelace_terms vertices))) F32.zero).
Proof.
  rewrite isClockwise_fsum. f_equal.
  rewrite (gt_zero_proper _ _ (fsum_reverse vertices)). apply gt_opp.
Qed.

(** Up to three terms, the backward order adds up to the same. *)
Lemma fsum_backward_short terms :
  (length terms <= 3)%nat -> same (fsum (backward terms)) (fsum terms).
Proof.
  destruct terms as [| t0 [| t1 [| t2 [| t3 rest]]]]; intros Hlen;
    try reflexivity; [| simpl in Hlen; lia].
  change (backward [t0; t1; t2]) with [t1; t0; t2].
  unfold fsum. cbn [fold_left].
  rewrite !add_zero_l, (add_comm t1 t0). reflexivity.
Qed.

Lemma length_chain first rest : length (chain (first :: rest)) = length rest.
Proof.
  revert first. induction rest as [| b rest IH]; intros first; [reflexivity |].
  rewrite chain_cons. cbn [length]. rewrite IH. reflexivity.
Qed.

Lemma length_shoelace_terms vertices :
  length (shoelace_terms vertices) = length vertices.
Proof.
  unfold shoelace_terms, closed_pairs. rewrite length_fmap.
  destruct vertices as [| first rest]; [reflexivity |].
  destruct (last (first :: rest)) as [final |] eqn:Hfinal;
    [| apply last_None in Hfinal; discriminate].
  rewrite length_app, length_chain. simpl. lia.
Qed.

End ShoelaceSum.

(** ** The loop of isEar *)

Section Ear.

Variables (vertices : list Vec2f) (prevIndex currentIndex nextIndex : Z).
Variables (prev current next : Vec2f).

Local Abbreviation blocked := (blocks vertices prevIndex currentIndex nextIndex prev current next).

Lemma isEar_loop_spec k j :
  0 <= j -> j + Z.of_nat k = size vertices ->
  exists b,
    isEar_loop vertices prevIndex currentIndex nextIndex prev current next k j = Ok b /\
    (b = false <-> exists j', (Z.to_nat j <= j')%nat /\ blocked j').
Proof.
  revert j. induction k as [| k IH]; intros j Hj Hk; simpl.
  - exists true. split; [reflexivity |]. split; [discriminate |].
    intros (j' & Hle & _ & _ & _ & point & Hpoint & _).
    apply lookup_lt_Some in Hpoint. unfold size in Hk. lia.
  - destruct (IH (j + 1)) as (b & Hb & Hspec); [lia | lia |].
    assert (Hlater : (exists j', (Z.to_nat j <= j')%nat /\ blocked j') <->
                     blocked (Z.to_nat j) \/
                     exists j', (Z.to_nat (j + 1) <= j')%nat /\ blocked j').
    { split.
      - intros (j' & Hle & Hj'). destruct (decide (j' = Z.to_nat j)) as [-> | Hne].
        + left. exact Hj'.
        + right. exists j'. split; [lia | exact Hj'].
      - intros [H | (j' & Hle & Hj')].
        + exists (Z.to_nat j). split; [lia | exact H].
        + exists j'. split; [lia | exact Hj']. }
    destruct (negb (j =? prevIndex) && negb (j =? currentIndex) && negb (j =? nextIndex))
      eqn:Hother.
    + destruct (at_in_range EarPoint vertices j) as [point Hpoint]; [lia |].
      rewrite Hpoint. simpl. apply at_Ok in Hpoint as [_ Hpoint].
      apply andb_true_iff in Hother as [[H1 H2]%andb_true_iff H3].
      apply negb_true_iff, Z.eqb_neq in H1, H2, H3.
      destruct (isPointInsideTriangle point prev current next) eqn:Hin.
      * exists false. split; [reflexivity |]. split; [| reflexivity].
        intros _. exists (Z.to_nat j). split; [lia |].
        unfold blocks. rewrite Z2Nat.id by lia. eauto 10.
      * exists b. split; [exact Hb |]. rewrite Hspec, Hlater.
        split; [auto |]. intros [(_ & _ & _ & q & Hq & Hq') | H]; [| exact H].
        congruence.
    + exists b. split; [exact Hb |]. rewrite Hspec, Hlater.
      split; [auto |]. intros [(H1 & H2 & H3 & _) | H]; [| exact H].
      rewrite Z2Nat.id in H1, H2, H3 by lia.
      apply Z.eqb_neq in H1, H2, H3. rewrite H1, H2, H3 in Hother. discriminate.
Qed.

End Ear.

Lemma isEar_Ok vertices prevIndex currentIndex nextIndex :
  0 <= prevIndex < size vertices -> 0 <= currentIndex < size vertices ->
  0 <= nextIndex < size vertices ->
  exists b, isEar vertices prevIndex currentIndex nextIndex = Ok b.
Proof.
  intros Hp Hc Hn. unfold isEar.
  destruct (at_in_range EarCorner vertices prevIndex Hp) as [p ->].
  destruct (at_in_range EarCorner vertices currentIndex Hc) as [c ->].
  destruct (at_in_range EarCorner vertices nextIndex Hn) as [n ->]. simpl.
  destruct (isEar_loop_spec vertices prevIndex currentIndex nextIndex p c n
              (length vertices) 0) as (b & Hb & _); [lia | reflexivity |].
  eauto.
Qed.

(** ** One scan of the clipping loop *)

Section Scan.

Variable vertices : list Vec2f.
Hypothesis nonempty : 0 < size vertices.

(** The scan returns: either no index from [i] on is accepted, or the
    first accepted one is clipped. *)
Lemma scan_spec k i :
  0 <= i -> i + Z.of_nat k = size vertices ->
  (scan vertices k i = Ok None /\
   forall i' t, i <= i' < size vertices -> ~ ear_tip vertices i' t) \/
  (exists i' t,
      i <= i' < size vertices /\ ear_tip vertices i' t /\
      (forall i'' t', i <= i'' < i' -> ~ ear_tip vertices i'' t') /\
      scan vertices k i = Ok (Some (t, delete (Z.to_nat i') vertices))).
Proof.
  revert i. induction k as [| k IH]; intros i Hi Hk.
  - left. split; [reflexivity |]. intros i' t Hi'. lia.
  - simpl.
    destruct (at_in_range ScanPrev vertices (prevIndex_of vertices i)) as [p Hp];
      [apply prevIndex_in_range, nonempty |].
    destruct (at_in_range ScanCurrent vertices i) as [c Hc]; [lia |].
    destruct (at_in_range ScanNext vertices (nextIndex_of vertices i)) as [n Hn];
      [apply nextIndex_in_range, nonempty |].
    rewrite Hp, Hc, Hn. simpl.
    destruct (isEar_Ok vertices (prevIndex_of vertices i) i (nextIndex_of vertices i))
      as [ear Hear];
      [apply prevIndex_in_range, nonempty | lia | apply nextIndex_in_range, nonempty |].
    assert (Hskip : isConvex p c n && ear = false ->
                    forall t, ~ ear_tip vertices i t).
    { intros Hno [[p' c'] n'] (Hp' & Hc' & Hn' & Hconvex & Hear').
      assert (p' = p) as -> by congruence. assert (c' = c) as -> by congruence.
      assert (n' = n) as -> by congruence. assert (ear = true) as -> by congruence.
      rewrite Hconvex in Hno. discriminate. }
    assert (Hrest :
      isConvex p c n && ear = false ->
      (scan vertices k (i + 1) = Ok None /\
       forall i' t, i <= i' < size vertices -> ~ ear_tip vertices i' t) \/
      (exists i' t,
          i <= i' < size vertices /\ ear_tip vertices i' t /\
          (forall i'' t', i <= i'' < i' -> ~ ear_tip vertices i'' t') /\
          scan vertices k (i + 1) = Ok (Some (t, delete (Z.to_nat i') vertices)))).
    { intros Hno. specialize (Hskip Hno).
      destruct (IH (i + 1)) as [[Hscan Hnone] | (i' & t & Hi' & Htip & Hfirst & Hscan)];
        [lia | lia | left | right].
      - split; [exact Hscan |]. intros i' t Hi'.
        destruct (Z.eq_dec i' i) as [-> | Hne]; [apply Hskip | apply Hnone; lia].
      - exists i', t. split; [lia |]. split; [exact Htip |]. split; [| exact Hscan].
        intros i'' t' Hi''.
        destruct (Z.eq_dec i'' i) as [-> | Hne]; [apply Hskip | apply Hfirst; lia]. }
    destruct (isConvex p c n) eqn:Hconvex; [| apply Hrest; reflexivity].
    rewrite Hear. simpl.
    destruct ear; [| apply Hrest; reflexivity].
    right. exists i, (p, c, n). split; [lia |]. split; [| split; [| reflexivity]].
    + repeat split; assumption.
    + intros i'' t' Hi''. lia.
Qed.

Lemma scan_Ok k i :
  0 <= i -> i + Z.of_nat k = size vertices -> exists r, scan vertices k i = Ok r.
Proof.
  intros Hi Hk.
  destruct (scan_spec k i Hi Hk) as [[H _] | (i' & t & _ & _ & _ & H)]; eauto.
Qed.

(** A clipped ear takes exactly one vertex away, and its triangle is made
    of vertices of the vector. *)
Lemma scan_clips k i t vertices' :
  0 <= i -> i + Z.of_nat k = size vertices ->
  scan vertices k i = Ok (Some (t, vertices')) ->
  S (length vertices') = length vertices /\
  vertices' ⊆ vertices /\ points t ⊆ vertices.
Proof.
  intros Hi Hk Hscan.
  destruct (scan_spec k i Hi Hk) as [[H _] | (i' & t' & Hi' & Htip & _ & H)];
    rewrite H in Hscan; [discriminate |].
  injection Hscan as <- <-. unfold size in *.
  split; [| split].
  - rewrite length_delete; [lia |]. apply lookup_lt_is_Some_2. lia.
  - apply list_subseteq_delete.
  - destruct t' as [[p c] n]. destruct Htip as (Hp & Hc & Hn & _).
    apply at_elem_of in Hp, Hc, Hn. simpl.
    intros v Hv. repeat (apply elem_of_cons in Hv as [-> | Hv]); try assumption.
    apply elem_of_nil in Hv. contradiction.
Qed.

End Scan.

(** ** The clipping loop *)

Section Clipping.

Implicit Types (s : state) (vertices : list Vec2f) (triangles : list Triangle).

Lemma clip_step_length s s' :
  clip_step s s' ->
  S (length s'.1) = length s.1 /\ length s'.2 = S (length s.2) /\ (3 <= length s'.1)%nat.
Proof.
  intros [Hsize (t & Hscan & ->)].
  apply scan_clips in Hscan as (Hlen & _); [| unfold size in *; lia | lia | reflexivity].
  rewrite length_app. simpl. unfold size in Hsize. lia.
Qed.

Lemma clip_step_subset s s' :
  clip_step s s' ->
  s'.1 ⊆ s.1 /\ exists t, s'.2 = s.2 ++ [t] /\ points t ⊆ s.1.
Proof.
  intros [Hsize (t & Hscan & ->)].
  apply scan_clips in Hscan as (_ & Hsub & Ht); [| unfold size in *; lia | lia | reflexivity].
  eauto.
Qed.

(** Every clip trades one vertex for one triangle. *)
Lemma clips_length s s' :
  clips s s' ->
  (length s'.1 + length s'.2 = length s.1 + length s.2)%nat /\
  (length s'.1 <= length s.1)%nat /\
  ((3 <= length s.1)%nat -> (3 <= length s'.1)%nat).
Proof.
  induction 1 as [s | s s' s'' Hstep _ IH].
  - lia.
  - apply clip_step_length in Hstep. lia.
Qed.

(** The vector only loses vertices, and the new triangles are made of
    vertices that were in it. *)
Lemma clips_subset s s' :
  clips s s' ->
  s'.1 ⊆ s.1 /\
  exists new, s'.2 = s.2 ++ new /\ forall t, t ∈ new -> points t ⊆ s.1.
Proof.
  induction 1 as [s | s s' s'' Hstep _ (Hsub & new & Hnew & Hpoints)].
  - split; [reflexivity |]. exists []. split; [symmetry; apply app_nil_r |].
    intros t Ht. apply elem_of_nil in Ht. contradiction.
  - apply clip_step_subset in Hstep as (Hsub' & t & Ht & Hpt).
    split; [etransitivity; eassumption |].
    exists (t :: new). split.
    + rewrite Hnew, Ht, <- app_assoc. reflexivity.
    + intros t' [-> | Hin]%elem_of_cons; [exact Hpt |].
      etransitivity; [apply Hpoints, Hin | exact Hsub'].
Qed.

(** The loop returns within [length vertices - 3] iterations, and its
    result is a state reached by clips: at three vertices or fewer by the
    loop condition, at more by a scan that found no ear. *)
Lemma clip_run fuel vertices triangles :
  (length vertices - 3 <= fuel)%nat ->
  exists vertices' triangles' e,
    clip fuel vertices triangles = Ok (vertices', triangles', e) /\
    clips (vertices, triangles) (vertices', triangles') /\
    match e with
    | SizeReached => size vertices' <= 3
    | NoEarFound =>
        3 < size vertices' /\ scan vertices' (length vertices') 0 = Ok None
    end.
Proof.
  revert vertices triangles.
  induction fuel as [| fuel IH]; intros vertices triangles Hfuel.
  - exists vertices, triangles, SizeReached. simpl.
    destruct (Z.ltb_spec 3 (size vertices)) as [H | H]; unfold size in *; [lia |].
    split; [reflexivity |]. split; [constructor | exact H].
  - simpl. destruct (Z.ltb_spec 3 (size vertices)) as [H | H].
    + destruct (scan_Ok vertices ltac:(lia) (length vertices) 0) as [[[t vs'] |] Hscan];
        [lia | reflexivity | |]; rewrite Hscan; simpl.
      * pose proof Hscan as Hclips.
        apply scan_clips in Hclips as (Hlen & _); [| lia | lia | reflexivity].
        destruct (IH vs' (triangles ++ [t])) as (v' & t' & e & Hrun & Hreach & Hexit);
          [lia |].
        exists v', t', e. split; [exact Hrun |]. split; [| exact Hexit].
        econstructor; [| exact Hreach]. split; [exact H |]. simpl. eauto.
      * exists vertices, triangles, NoEarFound.
        split; [reflexivity |]. split; [constructor | auto].
    + exists vertices, triangles, SizeReached.
      split; [reflexivity |]. split; [constructor | exact H].
Qed.

(** The loop is deterministic: from a state with enough fuel it passes
    through every state that clips reach. *)
Lemma clip_through s s' fuel :
  clips s s' -> (length s.1 - 3 <= fuel)%nat ->
  clip fuel s.1 s.2 = clip (fuel - (length s.1 - length s'.1)) s'.1 s'.2.
Proof.
  intros Hclips. revert fuel.
  induction Hclips as [s | s s' s'' Hstep Hclips IH]; intros fuel Hfuel.
  - f_equal. lia.
  - pose proof (clip_step_length _ _ Hstep) as (Hlen & _ & _).
    pose proof (clips_length _ _ Hclips) as (_ & Hle & _).
    destruct Hstep as [Hsize (t & Hscan & Ht)]. unfold size in Hsize.
    destruct fuel as [| fuel]; [lia |].
    simpl. destruct (Z.ltb_spec 3 (size s.1)) as [_ | H]; [| unfold size in H; lia].
    rewrite Hscan. simpl. rewrite <- Ht, IH by lia.
    f_equal. lia.
Qed.

(** A scan without an ear ends the loop where it stands. *)
Lemma clip_no_ear fuel vertices triangles :
  3 < size vertices -> scan vertices (length vertices) 0 = Ok None ->
  clip (S fuel) vertices triangles = Ok (vertices, triangles, NoEarFound).
Proof.
  intros Hsize Hscan. simpl.
  destruct (Z.ltb_spec 3 (size vertices)) as [_ | H]; [| lia].
  rewrite Hscan. reflexivity.
Qed.

End Clipping.

(** ** triangulate as a whole *)

Section Triangulate.

Implicit Types (vertices : list Vec2f) (triangles : list Triangle).

Lemma length_oriented vertices cw : length (oriented vertices cw) = length vertices.
Proof. unfold oriented. destruct cw; simpl; [reflexivity | apply length_reverse]. Qed.

Lemma elem_of_oriented vertices cw v : v ∈ oriented vertices cw <-> v ∈ vertices.
Proof. unfold oriented. destruct cw; simpl; [reflexivity | apply elem_of_reverse]. Qed.

Lemma clipping_unfold vertices cw :
  isClockwise vertices = Ok cw ->
  clipping vertices =
  clip (length (oriented vertices cw)) (oriented vertices cw) [].
Proof. intros H. unfold clipping. rewrite H. reflexivity. Qed.

(** The part of [triangulate] before the last triangle always returns. *)
Lemma clipping_run vertices :
  exists cw vertices' triangles e,
    isClockwise vertices = Ok cw /\
    clipping vertices = Ok (vertices', triangles, e) /\
    clips (oriented vertices cw, []) (vertices', triangles) /\
    match e with
    | SizeReached => size vertices' <= 3
    | NoEarFound =>
        3 < size vertices' /\ scan vertices' (length vertices') 0 = Ok None
    end.
Proof.
  destruct (isClockwise_Ok vertices) as [cw Hcw].
  destruct (clip_run (length (oriented vertices cw)) (oriented vertices cw) [])
    as (vs' & ts & e & Hrun & Hreach & Hexit); [lia |].
  exists cw, vs', ts, e. rewrite (clipping_unfold _ _ Hcw). auto.
Qed.

(** The last triangle, given what the loop left. *)
Lemma triangulate_unfold vertices vertices' triangles e :
  clipping vertices = Ok (vertices', triangles, e) ->
  triangulate vertices =
  (do v0 <- at_ LastTriangle vertices' 0;
   do v1 <- at_ LastTriangle vertices' 1;
   do v2 <- at_ LastTriangle vertices' 2;
   Ok (triangles ++ [(v0, v1, v2)], vertices')).
Proof. intros H. unfold triangulate. rewrite H. reflexivity. Qed.

Lemma triangulate_last vertices a b c rest triangles e :
  clipping vertices = Ok (a :: b :: c :: rest, triangles, e) ->
  triangulate vertices = Ok (triangles ++ [(a, b, c)], a :: b :: c :: rest).
Proof. intros H. rewrite (triangulate_unfold _ _ _ _ H). reflexivity. Qed.

Lemma triangulate_short vertices vertices' triangles e :
  clipping vertices = Ok (vertices', triangles, e) ->
  (length vertices' < 3)%nat ->
  triangulate vertices = OutOfRange LastTriangle.
Proof.
  intros H Hlen. rewrite (triangulate_unfold _ _ _ _ H).
  destruct vertices' as [| a [| b [| c rest]]]; simpl in *; try reflexivity. lia.
Qed.

Lemma at_least_three vertices :
  (3 <= length vertices)%nat -> exists a b c rest, vertices = a :: b :: c :: rest.
Proof. destruct vertices as [| a [| b [| c rest]]]; simpl; try lia. eauto. Qed.

End Triangulate.

(** A scan that runs to its end met no index that is convex and an ear,
    and the other way round. *)
Lemma scan_None_iff vertices :
  0 < size vertices ->
  scan vertices (length vertices) 0 = Ok None <->
  forall i t, 0 <= i < size vertices -> ~ ear_tip vertices i t.
Proof.
  intros Hne.
  destruct (scan_spec vertices Hne (length vertices) 0)
    as [[Hscan Hnone] | (i & t & Hi & Htip & _ & Hscan)]; [lia | reflexivity | |].
  - split; auto.
  - rewrite Hscan. split; [discriminate |]. intros H. destruct (H i t Hi Htip).
Qed.

(** ** Runs on the test polygons *)

Section Runs.

(** The square is given counter-clockwise; reversed, it is cut in two. *)
Example run_square :
  isClockwise square = Ok false /\
  triangulate square =
  Ok ([(pt 0 0, pt 0 2, pt 2 2); (pt 2 2, pt 2 0, pt 0 0)],
      [pt 2 2; pt 2 0; pt 0 0]).
Proof. vm_compute. auto. Qed.

(** A triangle is returned as it is, reversed when not clockwise, without
    entering the loop. *)
Example run_triangle :
  clipping [pt 0 0; pt 1 0; pt 0 1] = Ok ([pt 0 1; pt 1 0; pt 0 0], [], SizeReached) /\
  triangulate [pt 0 0; pt 1 0; pt 0 1] =
  Ok ([(pt 0 1, pt 1 0, pt 0 0)], [pt 0 1; pt 1 0; pt 0 0]).
Proof. vm_compute. auto. Qed.

Example run_demo :
  triangulate demo =
  Ok ([(pt (-2) 1, pt 1 1, pt 0 0); (pt (-1) (-1), pt (-2) 1, pt 0 0);
       (pt (-1) (-1), pt 0 0, pt 3 (-1))],
      [pt (-1) (-1); pt 0 0; pt 3 (-1)]).
Proof. vm_compute. reflexivity. Qed.

(** Three collinear points: the sum is zero, the vector is reversed, and
    the one triangle is degenerate. *)
Example run_collinear3 :
  isClockwise [pt 0 0; pt 1 0; pt 2 0] = Ok false /\
  triangulate [pt 0 0; pt 1 0; pt 2 0] =
  Ok ([(pt 2 0, pt 1 0, pt 0 0)], [pt 2 0; pt 1 0; pt 0 0]).
Proof. vm_compute. auto. Qed.

(** Four collinear points: no ear, and the fourth vertex is dropped. *)
Example run_collinear4 :
  clipping collinear4 = Ok ([pt 3 0; pt 2 0; pt 1 0; pt 0 0], [], NoEarFound) /\
  triangulate collinear4 =
  Ok ([(pt 3 0, pt 2 0, pt 1 0)], [pt 3 0; pt 2 0; pt 1 0; pt 0 0]).
Proof. vm_compute. auto. Qed.

(** The reversed [far_quad] is counter-clockwise but reported clockwise:
    it is not put in clockwise order, so no corner tests convex, and one
    triangle of the quadrilateral is returned. *)
Example run_far_quad_reversed :
  clipping (reverse far_quad) = Ok (reverse far_quad, [], NoEarFound) /\
  triangulate (reverse far_quad) =
  Ok ([(pt 3 8388611, pt 2 8388611, pt 1 8388610)], reverse far_quad).
Proof. vm_compute. auto. Qed.

(** Fewer than three vertices. *)
Example run_short :
  triangulate [] = OutOfRange LastTriangle /\
  triangulate [pt 0 0] = OutOfRange LastTriangle /\
  triangulate [pt 0 0; pt 1 0] = OutOfRange LastTriangle.
Proof. vm_compute. auto. Qed.

End Runs.

(** ** The properties of the specification *)

(** C1. Triangle count: when the loop of [triangulate] on a polygon of
    [n >= 3] vertices is left by its condition, not by the no-ear-found
    break, three vertices are left and [triangulate] returns exactly
    [n - 2] triangles. *)
Theorem triangle_count vertices vertices' triangles :
  (3 <= length vertices)%nat ->
  clipping vertices = Ok (vertices', triangles, SizeReached) ->
  exists out,
    triangulate vertices = Ok (out, vertices') /\
    length vertices' = 3%nat /\
    length out = (length vertices - 2)%nat.
Proof.
  intros Hn Hclip.
  destruct (clipping_run vertices) as (cw & vs' & ts & e & Hcw & Hrun & Hreach & Hexit).
  rewrite Hclip in Hrun. injection Hrun as <- <- <-.
  apply clips_length in Hreach as (Hsum & _ & Hmin). simpl in *.
  rewrite length_oriented in *. specialize (Hmin Hn). unfold size in Hexit.
  destruct (at_least_three vertices' Hmin) as (a & b & c & rest & ->).
  exists (triangles ++ [(a, b, c)]).
  split; [eapply triangulate_last, Hclip |].
  rewrite length_app. simpl in *. lia.
Qed.

Lemma triangle_count_demo :
  exists out vertices',
    triangulate demo = Ok (out, vertices') /\
    length vertices' = 3%nat /\ length out = 3%nat.
Proof.
  destruct (triangle_count demo
              [pt (-1) (-1); pt 0 0; pt 3 (-1)]
              [(pt (-2) 1, pt 1 1, pt 0 0); (pt (-1) (-1), pt (-2) 1, pt 0 0)])
    as (out & H1 & H2 & H3).
  - simpl. lia.
  - vm_compute. reflexivity.
  - exists out, [pt (-1) (-1); pt 0 0; pt 3 (-1)]. auto.
Defined.

(** C2. Containment: [isPointInsideTriangle] returns false exactly when
    one of the three cross products [alpha], [beta], [gamma] is strictly
    positive.  So it returns true when none is, as for a point on an edge
    or at a vertex of a triangle, where a cross product is zero. *)
Theorem inside_iff point prev current next :
  let alpha := crossProduct (Vec2f_sub current prev) (Vec2f_sub point prev) in
  let beta := crossProduct (Vec2f_sub next current) (Vec2f_sub point current) in
  let gamma := crossProduct (Vec2f_sub prev next) (Vec2f_sub point next) in
  (isPointInsideTriangle point prev current next = false <->
   F32.gt alpha F32.zero = true \/ F32.gt beta F32.zero = true \/
   F32.gt gamma F32.zero = true) /\
  (isPointInsideTriangle point prev current next = true <->
   F32.gt alpha F32.zero = false /\ F32.gt beta F32.zero = false /\
   F32.gt gamma F32.zero = false) /\
  (F32.eq alpha F32.zero = true ->
   F32.gt beta F32.zero = false -> F32.gt gamma F32.zero = false ->
   isPointInsideTriangle point prev current next = true) /\
  (F32.eq beta F32.zero = true ->
   F32.gt alpha F32.zero = false -> F32.gt gamma F32.zero = false ->
   isPointInsideTriangle point prev current next = true) /\
  (F32.eq gamma F32.zero = true ->
   F32.gt alpha F32.zero = false -> F32.gt beta F32.zero = false ->
   isPointInsideTriangle point prev current next = true).
Proof.
  intros alpha beta gamma.
  assert (Hdef : isPointInsideTriangle point prev current next =
                 negb (F32.gt alpha F32.zero || F32.gt beta F32.zero ||
                       F32.gt gamma F32.zero)).
  { unfold isPointInsideTriangle. fold alpha beta gamma.
    destruct (_ || _ || _); reflexivity. }
  rewrite Hdef. split; [| split; [| split; [| split]]].
  - rewrite negb_false_iff, !orb_true_iff. tauto.
  - rewrite negb_true_iff, !orb_false_iff. tauto.
  - intros Ha Hb Hc. rewrite (eq_zero_not_gt _ Ha), Hb, Hc. reflexivity.
  - intros Hb Ha Hc. rewrite (eq_zero_not_gt _ Hb), Ha, Hc. reflexivity.
  - intros Hc Ha Hb. rewrite (eq_zero_not_gt _ Hc), Ha, Hb. reflexivity.
Qed.

(** The vertices of a triangle and a point on one of its edges are inside. *)
Example inside_boundary :
  isPointInsideTriangle (pt 0 0) (pt 0 0) (pt 0 2) (pt 2 0) = true /\
  isPointInsideTriangle (pt 0 2) (pt 0 0) (pt 0 2) (pt 2 0) = true /\
  isPointInsideTriangle (pt 2 0) (pt 0 0) (pt 0 2) (pt 2 0) = true /\
  isPointInsideTriangle (pt 1 1) (pt 0 0) (pt 0 2) (pt 2 0) = true /\
  isPointInsideTriangle (pt 2 2) (pt 0 0) (pt 0 2) (pt 2 0) = false.
Proof. vm_compute. auto. Qed.

(** C3. Convexity: [isConvex] returns true exactly when
    [cross (prev - current) (next - current) > 0]; on a collinear triple,
    where the cross product is zero, it returns false. *)
Theorem convex_iff prev current next :
  let cross := crossProduct (Vec2f_sub prev current) (Vec2f_sub next current) in
  (isConvex prev current next = true <-> F32.gt cross F32.zero = true) /\
  (F32.eq cross F32.zero = true -> isConvex prev current next = false).
Proof.
  intros cross. unfold isConvex. fold cross.
  split; [reflexivity | apply eq_zero_not_gt].
Qed.

Example convex_collinear :
  isConvex (pt 0 0) (pt 1 0) (pt 2 0) = false /\
  isConvex (pt 0 0) (pt 0 2) (pt 2 2) = true /\
  isConvex (pt 2 2) (pt 0 2) (pt 0 0) = false.
Proof. vm_compute. auto. Qed.

(** C4. Ear test: for indices in range, [isEar] returns false exactly
    when some index [j] of the vector, other than the three given indices,
    holds a vertex that the containment test accepts for the triangle of
    the three corners; otherwise it returns true.  The three are left out
    by index: a vertex at another index is tested though it coincides
    with a corner. *)
Theorem isEar_iff vertices prevIndex currentIndex nextIndex prev current next :
  at_ EarCorner vertices prevIndex = Ok prev ->
  at_ EarCorner vertices currentIndex = Ok current ->
  at_ EarCorner vertices nextIndex = Ok next ->
  exists ear,
    isEar vertices prevIndex currentIndex nextIndex = Ok ear /\
    (ear = false <->
     exists j, blocks vertices prevIndex currentIndex nextIndex prev current next j) /\
    (ear = true <->
     forall j, ~ blocks vertices prevIndex currentIndex nextIndex prev current next j).
Proof.
  intros Hp Hc Hn. unfold isEar. rewrite Hp, Hc, Hn. simpl.
  destruct (isEar_loop_spec vertices prevIndex currentIndex nextIndex prev current next
              (length vertices) 0) as (ear & Hear & Hspec); [lia | reflexivity |].
  assert (Hfalse : ear = false <->
            exists j, blocks vertices prevIndex currentIndex nextIndex prev current next j).
  { rewrite Hspec. split; intros [j Hj]; [exists j; apply Hj | exists j].
    split; [simpl; lia | exact Hj]. }
  exists ear. split; [exact Hear |]. split; [exact Hfalse |].
  destruct ear; split; try discriminate; try reflexivity.
  - intros _ j Hj. assert (true = false) by (apply Hfalse; eauto). discriminate.
  - intros Hnone. destruct Hfalse as [[j Hj] _]; [reflexivity |]. destruct (Hnone j Hj).
Qed.

(** A second copy of a corner, at another index, blocks the ear. *)
Lemma isEar_iff_duplicate :
  isEar [pt 0 0; pt 0 2; pt 2 0; pt 0 2] 0 1 2 = Ok false /\
  blocks [pt 0 0; pt 0 2; pt 2 0; pt 0 2] 0 1 2 (pt 0 0) (pt 0 2) (pt 2 0) 3.
Proof.
  destruct (isEar_iff [pt 0 0; pt 0 2; pt 2 0; pt 0 2] 0 1 2 (pt 0 0) (pt 0 2) (pt 2 0))
    as (ear & Hear & Hfalse & _); try reflexivity.
  assert (Hblocks : blocks [pt 0 0; pt 0 2; pt 2 0; pt 0 2] 0 1 2
                      (pt 0 0) (pt 0 2) (pt 2 0) 3).
  { repeat split; try discriminate. exists (pt 0 2). split; vm_compute; reflexivity. }
  split; [| exact Hblocks].
  rewrite Hear. f_equal. apply Hfalse. exists 3%nat. exact Hblocks.
Defined.

(** C5, as the code has it.  The loop of [isClockwise] on the reversed
    vector adds the negated edge terms of the vector in the backward
    order.  When the [float] sum of the edge terms in that order is the
    [float] sum in the forward order, [sum], the two calls return
    [sum > 0] and [sum < 0]: opposite results, except that both are false
    when [sum] is zero or NaN. *)
Theorem orientation_flip vertices :
  let sum := fsum (shoelace_terms vertices) in
  same (fsum (backward (shoelace_terms vertices))) sum ->
  exists cw cw',
    isClockwise vertices = Ok cw /\
    isClockwise (reverse vertices) = Ok cw' /\
    if F32.eq sum F32.zero || F32.is_nan sum
    then cw = false /\ cw' = false
    else cw' = negb cw.
Proof.
  intros sum Hsame.
  exists (F32.gt sum F32.zero), (F32.lt sum F32.zero).
  split; [apply isClockwise_fsum |].
  split; [| apply sign_cases].
  rewrite isClockwise_reverse. f_equal. apply lt_zero_proper, Hsame.
Qed.

Lemma orientation_flip_square :
  isClockwise square = Ok false /\ isClockwise (reverse square) = Ok true.
Proof.
  destruct (orientation_flip square) as (cw & cw' & Hcw & Hcw' & Hflip).
  - left. vm_compute. reflexivity.
  - assert (Hfalse : cw = false).
    { assert (H : isClockwise square = Ok false) by (vm_compute; reflexivity).
      congruence. }
    subst cw. vm_compute in Hflip. subst cw'. auto.
Defined.

(** Up to three vertices the two orders always add up to the same. *)
Corollary orientation_flip_short vertices :
  (length vertices <= 3)%nat ->
  let sum := fsum (shoelace_terms vertices) in
  exists cw cw',
    isClockwise vertices = Ok cw /\
    isClockwise (reverse vertices) = Ok cw' /\
    if F32.eq sum F32.zero || F32.is_nan sum
    then cw = false /\ cw' = false
    else cw' = negb cw.
Proof.
  intros Hlen sum.
  exists (F32.gt sum F32.zero), (F32.lt sum F32.zero).
  split; [apply isClockwise_fsum |].
  split; [| apply sign_cases].
  rewrite isClockwise_reverse. f_equal.
  apply lt_zero_proper, fsum_backward_short.
  rewrite length_shoelace_terms. exact Hlen.
Qed.

(** C5, as stated: a convex quadrilateral and its reversal are both
    reported clockwise.  The edge terms are of the order of [2 ^ 24], and
    the two orders of adding them round differently. *)
Lemma orientation_flip_fails :
  isClockwise far_quad = Ok true /\ isClockwise (reverse far_quad) = Ok true.
Proof. vm_compute. auto. Qed.

(** C6. The no-ear-found exit: when the loop has reached a vector [current]
    of more than three vertices and a full scan of it finds no ear,
    [triangulate] leaves the loop without a fault and returns the
    triangles clipped so far followed by exactly one more, made of
    [current[0]], [current[1]], [current[2]]; the vertices after these
    (there is at least one) are dropped, and the result has fewer than
    [n - 2] triangles. *)
Theorem no_ear_exit vertices cw current triangles :
  isClockwise vertices = Ok cw ->
  clips (oriented vertices cw, []) (current, triangles) ->
  3 < size current ->
  scan current (length current) 0 = Ok None ->
  exists a b c rest,
    current = a :: b :: c :: rest /\ rest <> [] /\
    clipping vertices = Ok (current, triangles, NoEarFound) /\
    triangulate vertices = Ok (triangles ++ [(a, b, c)], current) /\
    (length (triangles ++ [(a, b, c)]) < length vertices - 2)%nat.
Proof.
  intros Hcw Hreach Hsize Hscan.
  pose proof (clips_length _ _ Hreach) as (Hsum & _ & _).
  simpl in Hsum. rewrite length_oriented in Hsum.
  assert (Hclip : clipping vertices = Ok (current, triangles, NoEarFound)).
  { rewrite (clipping_unfold _ _ Hcw).
    pose proof (clips_length _ _ Hreach) as (_ & Hle & _). simpl in Hle.
    rewrite (clip_through _ _ _ Hreach) by (simpl; lia). simpl fst. simpl snd.
    unfold size in Hsize.
    destruct (length (oriented vertices cw) -
              (length (oriented vertices cw) - length current))%nat as [| fuel] eqn:Hfuel;
      [lia |].
    apply clip_no_ear; [exact Hsize | exact Hscan]. }
  unfold size in Hsize.
  destruct current as [| a [| b [| c [| d rest]]]]; simpl in Hsize; try lia.
  exists a, b, c, (d :: rest).
  split; [reflexivity |]. split; [discriminate |].
  split; [exact Hclip |]. split; [apply (triangulate_last _ _ _ _ _ _ _ Hclip) |].
  rewrite length_app. simpl in *. lia.
Qed.

Lemma no_ear_exit_spur :
  triangulate spur =
  Ok ([(pt 0 0, pt 0 1, pt 1 0); (pt 1 0, pt 3 0, pt 2 0)],
      [pt 1 0; pt 3 0; pt 2 0; pt 0 0]).
Proof.
  destruct (no_ear_exit spur false [pt 1 0; pt 3 0; pt 2 0; pt 0 0]
              [(pt 0 0, pt 0 1, pt 1 0)])
    as (a & b & c & rest & Hcur & _ & _ & Hout & _).
  - vm_compute. reflexivity.
  - eapply clips_next; [| apply clips_here].
    split; [vm_compute; reflexivity |].
    exists (pt 0 0, pt 0 1, pt 1 0). split; vm_compute; reflexivity.
  - vm_compute. reflexivity.
  - vm_compute. reflexivity.
  - injection Hcur as <- <- <- _. exact Hout.
Defined.

(** C7, as the code has it.  With fewer than three vertices [triangulate]
    indexes out of range when it builds the last triangle from
    [vertices[0]], [vertices[1]], [vertices[2]], and nowhere before: the
    neighbour lookups take their index modulo the size and stay in range.
    With three vertices or more no access is out of range and
    [triangulate] returns. *)
Theorem short_input_faults vertices :
  ((length vertices < 3)%nat -> triangulate vertices = OutOfRange LastTriangle) /\
  ((3 <= length vertices)%nat -> exists out, triangulate vertices = Ok out).
Proof.
  destruct (clipping_run vertices) as (cw & vs' & ts & e & Hcw & Hrun & Hreach & Hexit).
  apply clips_length in Hreach as (_ & Hle & Hmin). simpl in *.
  rewrite length_oriented in *. split; intros Hn.
  - eapply triangulate_short; [exact Hrun | lia].
  - destruct (at_least_three vs' (Hmin Hn)) as (a & b & c & rest & ->).
    eexists. eapply triangulate_last, Hrun.
Qed.

(** C7, as stated: on two vertices the fault is not at a lookup whose
    index is taken modulo the size. *)
Lemma short_input_fault_not_modulo :
  ~ exists s, triangulate [pt 0 0; pt 1 0] = OutOfRange s /\ modulo_based s = true.
Proof. intros (s & Hs & Hmod). vm_compute in Hs. injection Hs as <-. discriminate. Qed.

(** C8. Termination: an iteration of the [while] loop either clips
    exactly one vertex and goes on with the shorter vector, or finds no ear
    and leaves the loop; so the loop returns within [size - 3] iterations,
    more fuel changes nothing, and [triangulate] with fuel for [size]
    iterations never runs out of it. *)
Theorem triangulate_terminates vertices triangles :
  (3 < size vertices ->
   (exists t vertices',
       scan vertices (length vertices) 0 = Ok (Some (t, vertices')) /\
       S (length vertices') = length vertices /\
       forall fuel, clip (S fuel) vertices triangles =
                    clip fuel vertices' (triangles ++ [t])) \/
   (scan vertices (length vertices) 0 = Ok None /\
    forall fuel, clip (S fuel) vertices triangles =
                 Ok (vertices, triangles, NoEarFound))) /\
  (exists final,
      forall fuel, (length vertices - 3 <= fuel)%nat ->
                   clip fuel vertices triangles = Ok final) /\
  triangulate vertices <> OutOfFuel.
Proof.
  split; [| split].
  - intros Hsize.
    destruct (scan_Ok vertices ltac:(lia) (length vertices) 0) as [[[t vs'] |] Hscan];
      [lia | reflexivity | left | right].
    + exists t, vs'. split; [exact Hscan |].
      split; [eapply scan_clips; [| | | exact Hscan]; [lia | lia | reflexivity] |].
      intros fuel. simpl.
      destruct (Z.ltb_spec 3 (size vertices)) as [_ | H]; [| lia].
      rewrite Hscan. reflexivity.
    + split; [exact Hscan |]. intros fuel. apply clip_no_ear; assumption.
  - destruct (clip_run (length vertices - 3) vertices triangles)
      as (vs' & ts & e & Hrun & Hreach & Hexit); [lia |].
    exists (vs', ts, e). intros fuel Hfuel.
    pose proof (clips_length _ _ Hreach) as (_ & Hle & _). simpl in Hle.
    pose proof (clip_through _ _ fuel Hreach) as Hthrough.
    simpl fst in Hthrough. simpl snd in Hthrough. rewrite Hthrough by lia.
    clear Hthrough Hrun.
    destruct e.
    + destruct (fuel - _)%nat; simpl;
        destruct (Z.ltb_spec 3 (size vs')) as [H | _]; try lia; reflexivity.
    + destruct Hexit as [Hsize Hscan]. unfold size in Hsize.
      destruct (fuel - (length vertices - length vs'))%nat as [| fuel'] eqn:Hfuel';
        [lia |].
      apply clip_no_ear; assumption.
  - destruct (clipping_run vertices) as (cw & vs' & ts & e & _ & Hrun & _).
    rewrite (triangulate_unfold _ _ _ _ Hrun).
    destruct (at_ LastTriangle vs' 0) eqn:H0; simpl; try discriminate;
      [| apply at_not_OutOfFuel in H0; contradiction].
    destruct (at_ LastTriangle vs' 1) eqn:H1; simpl; try discriminate;
      [| apply at_not_OutOfFuel in H1; contradiction].
    destruct (at_ LastTriangle vs' 2) eqn:H2; simpl; try discriminate.
    apply at_not_OutOfFuel in H2. contradiction.
Qed.

(** C9. Vertex subset: every point of every returned triangle is a vertex
    of the input, and so is every vertex left in the vector. *)
Theorem vertex_subset vertices out vertices' :
  triangulate vertices = Ok (out, vertices') ->
  (forall t v, t ∈ out -> v ∈ points t -> v ∈ vertices) /\ vertices' ⊆ vertices.
Proof.
  intros Hout.
  destruct (clipping_run vertices) as (cw & vs' & ts & e & Hcw & Hrun & Hreach & _).
  apply clips_subset in Hreach as (Hsub & new & Hnew & Hpoints). simpl in *. subst ts.
  rewrite (triangulate_unfold _ _ _ _ Hrun) in Hout.
  destruct (at_ LastTriangle vs' 0) as [v0 | |] eqn:H0; try discriminate.
  destruct (at_ LastTriangle vs' 1) as [v1 | |] eqn:H1; try discriminate.
  destruct (at_ LastTriangle vs' 2) as [v2 | |] eqn:H2; try discriminate.
  simpl in Hout. injection Hout as <- <-.
  assert (Hvs' : forall v, v ∈ vs' -> v ∈ vertices).
  { intros v Hv. eapply elem_of_oriented, Hsub, Hv. }
  split; [| exact Hvs'].
  intros t v [Ht | Ht]%elem_of_app Hv.
  - eapply elem_of_oriented, Hpoints; eassumption.
  - apply list_elem_of_singleton in Ht as ->. apply at_elem_of in H0, H1, H2.
    simpl in Hv. repeat (apply elem_of_cons in Hv as [-> | Hv]); auto.
    apply elem_of_nil in Hv. contradiction.
Qed.

Lemma vertex_subset_demo :
  Forall (fun t => Forall (fun v => v ∈ demo) (points t))
    [(pt (-2) 1, pt 1 1, pt 0 0); (pt (-1) (-1), pt (-2) 1, pt 0 0);
     (pt (-1) (-1), pt 0 0, pt 3 (-1))].
Proof.
  destruct (vertex_subset demo
              [(pt (-2) 1, pt 1 1, pt 0 0); (pt (-1) (-1), pt (-2) 1, pt 0 0);
               (pt (-1) (-1), pt 0 0, pt 3 (-1))]
              [pt (-1) (-1); pt 0 0; pt 3 (-1)]) as [Hpoints _].
  - vm_compute. reflexivity.
  - apply Forall_forall. intros t Ht. apply Forall_forall. intros v Hv.
    exact (Hpoints t v Ht Hv).
Defined.

(** C10. Triangle balance: on [n >= 3] vertices [triangulate] returns, by
    either exit of its loop, the triangles of the loop followed by exactly
    one more; their number is [n] minus the number of vertices left in the
    vector, plus one, and the result is not empty. *)
Theorem triangle_balance vertices :
  (3 <= length vertices)%nat ->
  exists vertices' triangles e last,
    clipping vertices = Ok (vertices', triangles, e) /\
    triangulate vertices = Ok (triangles ++ [last], vertices') /\
    (length vertices' <= length vertices)%nat /\
    length (triangles ++ [last]) = (length vertices - length vertices' + 1)%nat /\
    triangles ++ [last] <> [].
Proof.
  intros Hn.
  destruct (clipping_run vertices) as (cw & vs' & ts & e & Hcw & Hrun & Hreach & _).
  apply clips_length in Hreach as (Hsum & Hle & Hmin). simpl in *.
  rewrite length_oriented in *.
  destruct (at_least_three vs' (Hmin Hn)) as (a & b & c & rest & ->).
  exists (a :: b :: c :: rest), ts, e, (a, b, c).
  split; [exact Hrun |]. split; [eapply triangulate_last, Hrun |].
  split; [exact Hle |]. split; [rewrite length_app; simpl in *; lia |].
  destruct ts; discriminate.
Qed.

Lemma triangle_balance_spur :
  exists vertices' triangles e last,
    clipping spur = Ok (vertices', triangles, e) /\
    triangulate spur = Ok (triangles ++ [last], vertices') /\
    (length vertices' <= length spur)%nat /\
    length (triangles ++ [last]) = (length spur - length vertices' + 1)%nat /\
    triangles ++ [last] <> [].
Proof. apply (triangle_balance spur). simpl. lia. Defined.

(** ** binary32 arithmetic: zeros and NaN *)

Section Degenerate.

Implicit Types a b : float.

Lemma mul_comm a b : F32.mul a b = F32.mul b a.
Proof.
  unfold F32.mul.
  destruct a as [sa | sa | | sa ma ea], b as [sb | sb | | sb mb eb]; simpl;
    try reflexivity; try (destruct sa, sb; reflexivity).
  rewrite (Pos.mul_comm mb ma), (Z.add_comm eb ea), (xorb_comm sb sa). reflexivity.
Qed.

Lemma null_not_gt a : null a = true -> F32.gt a F32.zero = false.
Proof. destruct a as [s | s | | s m e]; try discriminate; reflexivity. Qed.

Lemma null_not_lt a : null a = true -> F32.lt a F32.zero = false.
Proof. destruct a as [s | s | | s m e]; try discriminate; reflexivity. Qed.

Lemma null_same a a' : same a a' -> null a = null a'.
Proof. intros [-> | (s & s' & -> & ->)]; reflexivity. Qed.

Lemma sub_self a : null (F32.sub a a) = true.
Proof.
  destruct a as [[|] | [|] | | s m e]; try reflexivity.
  unfold F32.sub, SFsub. rewrite Z.sub_diag. reflexivity.
Qed.

Lemma add_opp_self a : null (F32.add a (F32.opp a)) = true.
Proof.
  destruct a as [[|] | [|] | | s m e]; try reflexivity.
  unfold F32.add, F32.opp, SFopp, SFadd. rewrite cond_Zopp_negb, Z.add_opp_diag_r.
  reflexivity.
Qed.

Lemma mul_null_l a b : null a = true -> null (F32.mul a b) = true.
Proof.
  destruct a as [sa | sa | | sa ma ea]; try discriminate; intros _;
    destruct b; reflexivity.
Qed.

Lemma mul_null_r a b : null b = true -> null (F32.mul a b) = true.
Proof. rewrite mul_comm. apply mul_null_l. Qed.

Lemma sub_null a b : null a = true -> null b = true -> null (F32.sub a b) = true.
Proof.
  destruct a as [sa | sa | | sa ma ea]; try discriminate;
    destruct b as [sb | sb | | sb mb eb]; try discriminate; intros _ _;
    try reflexivity.
  destruct sa, sb; reflexivity.
Qed.

Lemma add_null a b : null a = true -> null b = true -> null (F32.add a b) = true.
Proof.
  destruct a as [sa | sa | | sa ma ea]; try discriminate;
    destruct b as [sb | sb | | sb mb eb]; try discriminate; intros _ _;
    try reflexivity.
  destruct sa, sb; reflexivity.
Qed.

(** NaN is absorbing. *)
Lemma add_nan_l a b : F32.is_nan a = true -> F32.is_nan (F32.add a b) = true.
Proof. destruct a; try discriminate. reflexivity. Qed.

Lemma add_nan_r a b : F32.is_nan b = true -> F32.is_nan (F32.add a b) = true.
Proof. destruct b; try discriminate. destruct a; reflexivity. Qed.

Lemma sub_nan_l a b : F32.is_nan a = true -> F32.is_nan (F32.sub a b) = true.
Proof. destruct a; try discriminate. reflexivity. Qed.

Lemma sub_nan_r a b : F32.is_nan b = true -> F32.is_nan (F32.sub a b) = true.
Proof. destruct b; try discriminate. destruct a; reflexivity. Qed.

Lemma mul_nan_l a b : F32.is_nan a = true -> F32.is_nan (F32.mul a b) = true.
Proof. destruct a; try discriminate. reflexivity. Qed.

Lemma mul_nan_r a b : F32.is_nan b = true -> F32.is_nan (F32.mul a b) = true.
Proof. destruct b; try discriminate. destruct a; reflexivity. Qed.

Lemma nan_not_gt a : F32.is_nan a = true -> F32.gt a F32.zero = false.
Proof. destruct a; try discriminate. reflexivity. Qed.

End Degenerate.

(** ** Cross products of degenerate vectors *)

Section Cross.

Implicit Types a b u v : Vec2f.

Lemma crossProduct_swap a b :
  same (crossProduct a b) (F32.opp (crossProduct b a)).
Proof.
  unfold crossProduct.
  rewrite (mul_comm (x b) (y a)), (mul_comm (y b) (x a)). apply sub_swap.
Qed.

Lemma crossProduct_self a : null (crossProduct a a) = true.
Proof. unfold crossProduct. rewrite (mul_comm (y a) (x a)). apply sub_self. Qed.

Lemma sub_self_null_vec a : null_vec (Vec2f_sub a a) = true.
Proof. unfold null_vec, Vec2f_sub. simpl. rewrite !sub_self. reflexivity. Qed.

Lemma crossProduct_null_l u v : null_vec u = true -> null (crossProduct u v) = true.
Proof.
  intros [Hx Hy]%andb_true_iff. unfold crossProduct.
  apply sub_null; apply mul_null_l; assumption.
Qed.

Lemma crossProduct_null_r u v : null_vec v = true -> null (crossProduct u v) = true.
Proof.
  intros [Hx Hy]%andb_true_iff. unfold crossProduct.
  apply sub_null; apply mul_null_r; assumption.
Qed.

Lemma crossProduct_nan_l u v : has_nan u = true -> F32.is_nan (crossProduct u v) = true.
Proof.
  intros [H | H]%orb_true_iff; unfold crossProduct.
  - apply sub_nan_l, mul_nan_l, H.
  - apply sub_nan_r, mul_nan_l, H.
Qed.

Lemma crossProduct_nan_r u v : has_nan v = true -> F32.is_nan (crossProduct u v) = true.
Proof.
  intros [H | H]%orb_true_iff; unfold crossProduct.
  - apply sub_nan_r, mul_nan_r, H.
  - apply sub_nan_l, mul_nan_r, H.
Qed.

Lemma sub_has_nan_l a b : has_nan a = true -> has_nan (Vec2f_sub a b) = true.
Proof.
  unfold has_nan, Vec2f_sub. simpl. intros [H | H]%orb_true_iff.
  - rewrite (sub_nan_l _ _ H). reflexivity.
  - rewrite (sub_nan_l _ (y b) H). apply orb_true_r.
Qed.

Lemma sub_has_nan_r a b : has_nan b = true -> has_nan (Vec2f_sub a b) = true.
Proof.
  unfold has_nan, Vec2f_sub. simpl. intros [H | H]%orb_true_iff.
  - rewrite (sub_nan_r _ _ H). reflexivity.
  - rewrite (sub_nan_r (y a) _ H). apply orb_true_r.
Qed.

End Cross.

(** ** The tests on degenerate input *)

Section DegenerateTests.

Lemma inside_rotate (point prev current next : Vec2f) :
  isPointInsideTriangle point current next prev =
  isPointInsideTriangle point prev current next.
Proof.
  unfold isPointInsideTriangle.
  destruct (F32.gt (crossProduct (Vec2f_sub current prev) (Vec2f_sub point prev)) F32.zero),
    (F32.gt (crossProduct (Vec2f_sub next current) (Vec2f_sub point current)) F32.zero),
    (F32.gt (crossProduct (Vec2f_sub prev next) (Vec2f_sub point next)) F32.zero);
    reflexivity.
Qed.

Lemma inside_nan_point (point prev current next : Vec2f) :
  has_nan point = true -> isPointInsideTriangle point prev current next = true.
Proof.
  intros Hnan. unfold isPointInsideTriangle.
  rewrite !nan_not_gt; [reflexivity | | |];
    apply crossProduct_nan_r, sub_has_nan_l, Hnan.
Qed.

Lemma isConvex_nan (prev current next : Vec2f) :
  has_nan prev = true \/ has_nan current = true \/ has_nan next = true ->
  isConvex prev current next = false.
Proof.
  intros H. unfold isConvex. apply nan_not_gt.
  destruct H as [H | [H | H]].
  - apply crossProduct_nan_l, sub_has_nan_l, H.
  - apply crossProduct_nan_l, sub_has_nan_r, H.
  - apply crossProduct_nan_r, sub_has_nan_l, H.
Qed.

Lemma inside_corner (point corner : Vec2f) :
  isPointInsideTriangle point corner corner corner = true.
Proof.
  unfold isPointInsideTriangle.
  rewrite !null_not_gt; [reflexivity | ..];
    apply crossProduct_null_l, sub_self_null_vec.
Qed.

Lemma inside_prev (prev current next : Vec2f) :
  isPointInsideTriangle prev prev current next = negb (isConvex next current prev).
Proof.
  unfold isPointInsideTriangle, isConvex.
  rewrite (null_not_gt (crossProduct (Vec2f_sub current prev) (Vec2f_sub prev prev)))
    by apply crossProduct_null_r, sub_self_null_vec.
  rewrite (null_not_gt (crossProduct (Vec2f_sub prev next) (Vec2f_sub prev next)))
    by apply crossProduct_self.
  rewrite orb_false_r. simpl.
  destruct (F32.gt _ _); reflexivity.
Qed.

Lemma gt_not_lt (a : float) : F32.gt a F32.zero = true -> F32.lt a F32.zero = false.
Proof. destruct a as [s | s | | s m e]; try destruct s; cbv; congruence. Qed.

Lemma convex_not_swapped (prev current next : Vec2f) :
  isConvex prev current next = true -> isConvex next current prev = false.
Proof.
  intros H. unfold isConvex in *.
  rewrite (gt_zero_proper _ _ (crossProduct_swap _ _)), gt_opp.
  apply gt_not_lt, H.
Qed.

Lemma inside_prev_convex (prev current next : Vec2f) :
  isConvex prev current next = true ->
  isPointInsideTriangle prev prev current next = true.
Proof. intros H. rewrite inside_prev, (convex_not_swapped _ _ _ H). reflexivity. Qed.

End DegenerateTests.

(** ** isEar, given its corners *)

Section EarFacts.

Variables (vertices : list Vec2f) (prevIndex currentIndex nextIndex : Z).
Variables (prev current next : Vec2f).
Hypothesis Hprev : at_ EarCorner vertices prevIndex = Ok prev.
Hypothesis Hcurrent : at_ EarCorner vertices currentIndex = Ok current.
Hypothesis Hnext : at_ EarCorner vertices nextIndex = Ok next.

Lemma isEar_blocked j :
  blocks vertices prevIndex currentIndex nextIndex prev current next j ->
  isEar vertices prevIndex currentIndex nextIndex = Ok false.
Proof.
  intros Hj. unfold isEar. rewrite Hprev, Hcurrent, Hnext. simpl.
  destruct (isEar_loop_spec vertices prevIndex currentIndex nextIndex prev current next
              (length vertices) 0) as (ear & -> & Hspec); [lia | reflexivity |].
  f_equal. apply Hspec. exists j. split; [simpl; lia | exact Hj].
Qed.

Lemma isEar_free :
  (forall j, ~ blocks vertices prevIndex currentIndex nextIndex prev current next j) ->
  isEar vertices prevIndex currentIndex nextIndex = Ok true.
Proof.
  intros Hfree. unfold isEar. rewrite Hprev, Hcurrent, Hnext. simpl.
  destruct (isEar_loop_spec vertices prevIndex currentIndex nextIndex prev current next
              (length vertices) 0) as (ear & -> & Hspec); [lia | reflexivity |].
  f_equal. destruct ear; [reflexivity |].
  destruct Hspec as [(j & _ & Hj) _]; [reflexivity |]. destruct (Hfree j Hj).
Qed.

End EarFacts.

Lemma at_cases s vertices i :
  (0 <= i < size vertices /\ exists v, at_ s vertices i = Ok v) \/
  (~ 0 <= i < size vertices /\ at_ s vertices i = OutOfRange s).
Proof.
  destruct (decide (0 <= i < size vertices)) as [Hin | Hout].
  - left. split; [exact Hin | apply at_in_range, Hin].
  - right. split; [exact Hout |]. unfold at_, size in *.
    destruct (Z.leb_spec 0 i); [| reflexivity].
    rewrite lookup_ge_None_2; [reflexivity | lia].
Qed.

Lemma isEar_loop_rotate vertices pI cI nI p c n k j :
  isEar_loop vertices cI nI pI c n p k j = isEar_loop vertices pI cI nI p c n k j.
Proof.
  revert j. induction k as [| k IH]; intros j; [reflexivity |]. simpl.
  rewrite IH.
  replace (negb (j =? cI) && negb (j =? nI) && negb (j =? pI))
    with (negb (j =? pI) && negb (j =? cI) && negb (j =? nI))
    by (destruct (j =? pI), (j =? cI), (j =? nI); reflexivity).
  destruct (_ && _ && _); [| reflexivity].
  destruct (at_ EarPoint vertices j) as [point | |]; simpl; try reflexivity.
  rewrite inside_rotate. reflexivity.
Qed.

(** ** The shoelace terms, vertex by vertex *)

Section ShoelaceFacts.

Lemma chain_zip a rest final closing :
  last (a :: rest) = Some final ->
  chain (a :: rest) ++ [(final, closing)] = zip (a :: rest) (rest ++ [closing]).
Proof.
  revert a. induction rest as [| b rest IH]; intros a Hfinal.
  - injection Hfinal as <-. reflexivity.
  - rewrite chain_cons. simpl. f_equal. apply IH. exact Hfinal.
Qed.

Lemma closed_pairs_zip first rest :
  closed_pairs (first :: rest) = zip (first :: rest) (rest ++ [first]).
Proof.
  unfold closed_pairs.
  destruct (last (first :: rest)) as [final |] eqn:Hfinal;
    [| apply last_None in Hfinal; discriminate].
  apply chain_zip, Hfinal.
Qed.

Lemma shoelace_terms_zip first rest :
  shoelace_terms (first :: rest) = zip_with edge_term (first :: rest) (rest ++ [first]).
Proof.
  unfold shoelace_terms. rewrite closed_pairs_zip.
  generalize (rest ++ [first]). generalize (first :: rest).
  induction l as [| a l IH]; intros [| b l']; simpl; try reflexivity.
  f_equal. apply IH.
Qed.

Lemma fold_nan terms sum :
  F32.is_nan sum = true -> F32.is_nan (fold_left F32.add terms sum) = true.
Proof.
  revert sum. induction terms as [| t l IH]; intros sum H; [exact H |].
  simpl. apply IH, add_nan_l, H.
Qed.

Lemma fold_nan_term terms sum t :
  t ∈ terms -> F32.is_nan t = true -> F32.is_nan (fold_left F32.add terms sum) = true.
Proof.
  intros Hin Ht. revert sum.
  induction Hin as [t l | t t' l _ IH]; intros sum; simpl.
  - apply fold_nan, add_nan_r, Ht.
  - apply IH, Ht.
Qed.

Lemma edge_term_nan current next :
  has_nan current = true -> F32.is_nan (edge_term current next) = true.
Proof.
  unfold edge_term. intros [H | H]%orb_true_iff.
  - apply mul_nan_l, sub_nan_r, H.
  - apply mul_nan_r, add_nan_r, H.
Qed.

Lemma shoelace_terms_current vertices v :
  v ∈ vertices -> exists next, edge_term v next ∈ shoelace_terms vertices.
Proof.
  destruct vertices as [| first rest]; [intros H; apply elem_of_nil in H; contradiction |].
  rewrite shoelace_terms_zip.
  assert (Hlen : length (first :: rest) = length (rest ++ [first])).
  { rewrite length_app. simpl. lia. }
  revert Hlen. generalize (rest ++ [first]). generalize (first :: rest).
  induction l as [| a l IH]; intros [| b l'] Hlen Hv; simpl in *; try discriminate.
  - apply elem_of_nil in Hv. contradiction.
  - apply elem_of_cons in Hv as [-> | Hv].
    + exists b. left.
    + destruct (IH l') as [n Hn]; [lia | exact Hv |]. exists n. right. exact Hn.
Qed.

Lemma fsum_nan vertices v :
  v ∈ vertices -> has_nan v = true ->
  F32.is_nan (fsum (shoelace_terms vertices)) = true.
Proof.
  intros Hv Hnan.
  destruct (shoelace_terms_current vertices v Hv) as [next Hterm].
  apply (fold_nan_term _ _ _ Hterm), edge_term_nan, Hnan.
Qed.

End ShoelaceFacts.

(** ** More on the scan and the clips *)

Section ScanFacts.

Lemma at_site s s' vertices i v : at_ s vertices i = Ok v -> at_ s' vertices i = Ok v.
Proof. rewrite !at_Ok. auto. Qed.

Lemma ear_tip_unique vertices i t t' :
  ear_tip vertices i t -> ear_tip vertices i t' -> t = t'.
Proof.
  destruct t as [[p c] n], t' as [[p' c'] n'].
  intros (Hp & Hc & Hn & _) (Hp' & Hc' & Hn' & _). congruence.
Qed.

Lemma scan_found vertices t vertices' :
  0 < size vertices ->
  scan vertices (length vertices) 0 = Ok (Some (t, vertices')) ->
  exists i, 0 <= i < size vertices /\ ear_tip vertices i t /\
            (forall i' t', 0 <= i' < i -> ~ ear_tip vertices i' t') /\
            vertices' = delete (Z.to_nat i) vertices.
Proof.
  intros Hne Hscan.
  destruct (scan_spec vertices Hne (length vertices) 0)
    as [[H _] | (i & t0 & Hi & Htip & Hfirst & H)]; [lia | reflexivity | |];
    rewrite H in Hscan; [discriminate |].
  injection Hscan as <- <-. eauto.
Qed.

(** A vertex with a NaN coordinate leaves no ear anywhere. *)
Lemma scan_nan vertices v :
  v ∈ vertices -> has_nan v = true ->
  scan vertices (length vertices) 0 = Ok None.
Proof.
  intros Hv Hnan.
  assert (Hne : 0 < size vertices).
  { unfold size. destruct vertices; [apply elem_of_nil in Hv; contradiction | simpl; lia]. }
  apply scan_None_iff; [exact Hne |].
  apply list_elem_of_lookup in Hv as [k Hk].
  intros i [[p c] n] Hi (Hp & Hc & Hn & Hconvex & Hear).
  destruct (decide (Z.of_nat k = prevIndex_of vertices i)) as [E1 | N1].
  { apply at_Ok in Hp as [_ Hp]. rewrite <- E1, Nat2Z.id, Hk in Hp. injection Hp as <-.
    rewrite isConvex_nan in Hconvex by auto. discriminate. }
  destruct (decide (Z.of_nat k = i)) as [E2 | N2].
  { apply at_Ok in Hc as [_ Hc]. rewrite <- E2, Nat2Z.id, Hk in Hc. injection Hc as <-.
    rewrite isConvex_nan in Hconvex by auto. discriminate. }
  destruct (decide (Z.of_nat k = nextIndex_of vertices i)) as [E3 | N3].
  { apply at_Ok in Hn as [_ Hn]. rewrite <- E3, Nat2Z.id, Hk in Hn. injection Hn as <-.
    rewrite isConvex_nan in Hconvex by auto. discriminate. }
  rewrite (isEar_blocked vertices _ _ _ p c n
             (at_site _ EarCorner _ _ _ Hp) (at_site _ EarCorner _ _ _ Hc)
             (at_site _ EarCorner _ _ _ Hn) k) in Hear; [discriminate |].
  repeat split; try assumption.
  exists v. split; [exact Hk | apply inside_nan_point, Hnan].
Qed.

Lemma clips_sublist s s' : clips s s' -> s'.1 `sublist_of` s.1.
Proof.
  induction 1 as [s | s s' s'' [Hsize (t & Hscan & _)] _ IH]; [reflexivity |].
  apply scan_found in Hscan as (i & _ & _ & _ & Hdelete); [| lia].
  rewrite Hdelete in IH.
  etransitivity; [exact IH | apply sublist_delete].
Qed.

Lemma clips_convex s s' :
  clips s s' ->
  exists new, s'.2 = s.2 ++ new /\
              Forall (fun t : Triangle => isConvex t.1.1 t.1.2 t.2 = true) new.
Proof.
  induction 1 as [s | s s' s'' [Hsize (t & Hscan & Ht)] _ (new & Hnew & Hall)].
  - exists []. split; [symmetry; apply app_nil_r | constructor].
  - apply scan_found in Hscan as (i & _ & Htip & _ & _); [| lia].
    exists (t :: new). split; [rewrite Hnew, Ht, <- app_assoc; reflexivity |].
    constructor; [| exact Hall].
    destruct t as [[p c] n]. apply Htip.
Qed.

Lemma clips_tips s s' :
  clips s s' ->
  exists new, s'.2 = s.2 ++ new /\
              s.1 ≡ₚ s'.1 ++ ((fun t : Triangle => t.1.2) <$> new).
Proof.
  induction 1 as [s | s s' s'' [Hsize (t & Hscan & Ht)] _ (new & Hnew & Hperm)].
  - exists []. split; [symmetry; apply app_nil_r |]. simpl. rewrite app_nil_r. reflexivity.
  - apply scan_found in Hscan as (i & Hi & Htip & _ & Hdelete); [| lia].
    exists (t :: new). split; [rewrite Hnew, Ht, <- app_assoc; reflexivity |].
    destruct t as [[p c] n]. destruct Htip as (_ & Hc & _).
    apply at_Ok in Hc as [_ Hc].
    rewrite (delete_Permutation _ _ _ Hc), <- Hdelete, Hperm. simpl.
    apply Permutation_middle.
Qed.

End ScanFacts.

(** ** Further properties of the code *)

(** X1. [operator+] is commutative, exactly: also on NaN, infinities and
    signed zeros. *)
Theorem Vec2f_add_comm (vec1 vec2 : Vec2f) :
  Vec2f_add vec1 vec2 = Vec2f_add vec2 vec1.
Proof.
  unfold Vec2f_add. rewrite (add_comm (x vec1)), (add_comm (y vec1)). reflexivity.
Qed.

(** X2. [operator-] with its operands swapped gives the negated vector,
    up to the sign of a zero coordinate; a vector minus itself has
    coordinates that are zero, or NaN when the coordinate is not finite. *)
Theorem Vec2f_sub_swap (vec1 vec2 : Vec2f) :
  same (x (Vec2f_sub vec1 vec2)) (F32.opp (x (Vec2f_sub vec2 vec1))) /\
  same (y (Vec2f_sub vec1 vec2)) (F32.opp (y (Vec2f_sub vec2 vec1))) /\
  null_vec (Vec2f_sub vec1 vec1) = true.
Proof.
  split; [apply sub_swap |]. split; [apply sub_swap | apply sub_self_null_vec].
Qed.

(** X3. [crossProduct] is antisymmetric in binary32, up to the sign of a
    zero: [cross a b > 0] exactly when [cross b a < 0]; and the cross
    product of a vector with itself is never positive nor negative. *)
Theorem crossProduct_antisymmetric (a b : Vec2f) :
  same (crossProduct a b) (F32.opp (crossProduct b a)) /\
  F32.gt (crossProduct a b) F32.zero = F32.lt (crossProduct b a) F32.zero /\
  F32.gt (crossProduct a a) F32.zero = false /\
  F32.lt (crossProduct a a) F32.zero = false.
Proof.
  split; [apply crossProduct_swap |]. split.
  - rewrite (gt_zero_proper _ _ (crossProduct_swap a b)). apply gt_opp.
  - split; [apply null_not_gt | apply null_not_lt]; apply crossProduct_self.
Qed.

(** X4. Swapping [prev] and [next] flips [isConvex]: with
    [cross = cross (prev - current) (next - current)], the swapped call
    returns [cross < 0]; so the two calls are never both true, and they are
    opposite unless [cross] is zero or NaN, where both are false. *)
Theorem isConvex_swap (prev current next : Vec2f) :
  let cross := crossProduct (Vec2f_sub prev current) (Vec2f_sub next current) in
  isConvex next current prev = F32.lt cross F32.zero /\
  if F32.eq cross F32.zero || F32.is_nan cross
  then isConvex prev current next = false /\ isConvex next current prev = false
  else isConvex next current prev = negb (isConvex prev current next).
Proof.
  intros cross.
  assert (Hswap : isConvex next current prev = F32.lt cross F32.zero).
  { unfold isConvex.
    rewrite (gt_zero_proper _ _ (crossProduct_swap _ _)). apply gt_opp. }
  split; [exact Hswap |]. rewrite Hswap. apply sign_cases.
Qed.

(** X5. [isConvex] returns false whenever two of its three points are the
    same point. *)
Theorem isConvex_coincident (a b : Vec2f) :
  isConvex a a b = false /\ isConvex a b b = false /\ isConvex a b a = false.
Proof.
  unfold isConvex. repeat split; apply null_not_gt.
  - apply crossProduct_null_l, sub_self_null_vec.
  - apply crossProduct_null_r, sub_self_null_vec.
  - apply crossProduct_self.
Qed.

(** X6. NaN coordinates: a query point with a NaN coordinate is reported
    inside every triangle, and a corner with a NaN coordinate in any of its
    three points is never convex. *)
Theorem nan_coordinates (point prev current next : Vec2f) :
  (has_nan point = true -> isPointInsideTriangle point prev current next = true) /\
  (has_nan prev = true \/ has_nan current = true \/ has_nan next = true ->
   isConvex prev current next = false).
Proof. split; [apply inside_nan_point | apply isConvex_nan]. Qed.

(** X7. The containment test and the ear test do not depend on which of
    the three corners comes first: rotating (prev, current, next) to
    (current, next, prev) changes neither result, nor a fault. *)
Theorem rotate_corners vertices point prevIndex currentIndex nextIndex prev current next :
  isPointInsideTriangle point current next prev =
  isPointInsideTriangle point prev current next /\
  isEar vertices currentIndex nextIndex prevIndex =
  isEar vertices prevIndex currentIndex nextIndex.
Proof.
  split; [apply inside_rotate |].
  unfold isEar.
  destruct (at_cases EarCorner vertices prevIndex) as [[_ [p ->]] | [_ ->]];
    destruct (at_cases EarCorner vertices currentIndex) as [[_ [c ->]] | [_ ->]];
    destruct (at_cases EarCorner vertices nextIndex) as [[_ [n ->]] | [_ ->]];
    simpl; try reflexivity.
  apply isEar_loop_rotate.
Qed.

(** X8. Degenerate triangles: a triangle whose three corners are the same
    point contains every point; and [prev] itself is inside the triangle
    (prev, current, next) exactly when the corner is not convex with
    [prev] and [next] swapped, so always when the corner is convex. *)
Theorem inside_degenerate (point prev current next : Vec2f) :
  isPointInsideTriangle point prev prev prev = true /\
  isPointInsideTriangle prev prev current next = negb (isConvex next current prev) /\
  (isConvex prev current next = true ->
   isPointInsideTriangle prev prev current next = true).
Proof.
  split; [apply inside_corner |]. split; [apply inside_prev | apply inside_prev_convex].
Qed.

(** X9. A second copy of [prev], at an index other than the three given
    ones, blocks a convex corner: [isEar] returns false. *)
Theorem isEar_duplicate_prev vertices prevIndex currentIndex nextIndex prev current next j :
  at_ EarCorner vertices prevIndex = Ok prev ->
  at_ EarCorner vertices currentIndex = Ok current ->
  at_ EarCorner vertices nextIndex = Ok next ->
  isConvex prev current next = true ->
  vertices !! j = Some prev ->
  Z.of_nat j <> prevIndex -> Z.of_nat j <> currentIndex -> Z.of_nat j <> nextIndex ->
  isEar vertices prevIndex currentIndex nextIndex = Ok false.
Proof.
  intros Hp Hc Hn Hconvex Hj H1 H2 H3.
  apply (isEar_blocked _ _ _ _ _ _ _ Hp Hc Hn j).
  repeat split; try assumption.
  exists prev. split; [exact Hj | apply inside_prev_convex, Hconvex].
Qed.

Lemma isEar_duplicate_prev_square :
  isEar [pt 0 0; pt 0 2; pt 2 0; pt 0 0] 0 1 2 = Ok false.
Proof.
  apply (isEar_duplicate_prev _ 0 1 2 (pt 0 0) (pt 0 2) (pt 2 0) 3);
    first [reflexivity | discriminate].
Defined.

(** X10. Bounds of [isEar]: it returns when its three indices are below
    the size of the vector, and indexes out of range, at one of its first
    three lookups, when one is not. *)
Theorem isEar_in_range vertices prevIndex currentIndex nextIndex :
  ((0 <= prevIndex < size vertices /\ 0 <= currentIndex < size vertices /\
    0 <= nextIndex < size vertices) ->
   exists ear, isEar vertices prevIndex currentIndex nextIndex = Ok ear) /\
  (~ (0 <= prevIndex < size vertices /\ 0 <= currentIndex < size vertices /\
      0 <= nextIndex < size vertices) ->
   isEar vertices prevIndex currentIndex nextIndex = OutOfRange EarCorner).
Proof.
  split.
  - intros (Hp & Hc & Hn). apply isEar_Ok; assumption.
  - intros Hout. unfold isEar.
    destruct (at_cases EarCorner vertices prevIndex) as [[Hp [p ->]] | [_ ->]];
      [| reflexivity].
    destruct (at_cases EarCorner vertices currentIndex) as [[Hc [c ->]] | [_ ->]];
      [| reflexivity].
    destruct (at_cases EarCorner vertices nextIndex) as [[Hn [n ->]] | [_ ->]];
      [| reflexivity].
    destruct Hout. auto.
Qed.

(** X11. When the vector holds no vertex besides the three corners, as
    for a triangle, [isEar] returns true. *)
Theorem isEar_triangle vertices prevIndex currentIndex nextIndex :
  0 <= prevIndex < size vertices -> 0 <= currentIndex < size vertices ->
  0 <= nextIndex < size vertices ->
  (forall j, 0 <= j < size vertices ->
             j = prevIndex \/ j = currentIndex \/ j = nextIndex) ->
  isEar vertices prevIndex currentIndex nextIndex = Ok true.
Proof.
  intros Hp Hc Hn Hall.
  destruct (at_in_range EarCorner vertices prevIndex Hp) as [p Hp'].
  destruct (at_in_range EarCorner vertices currentIndex Hc) as [c Hc'].
  destruct (at_in_range EarCorner vertices nextIndex Hn) as [n Hn'].
  apply (isEar_free _ _ _ _ p c n Hp' Hc' Hn').
  intros j (H1 & H2 & H3 & point & Hpoint & _).
  apply lookup_lt_Some in Hpoint.
  destruct (Hall (Z.of_nat j)) as [H | [H | H]]; unfold size; try lia; contradiction.
Qed.

Lemma isEar_triangle_three :
  isEar [pt 0 0; pt 0 2; pt 2 0] 2 0 1 = Ok true.
Proof.
  apply isEar_triangle; try (vm_compute; split; [discriminate | reflexivity]).
  intros j Hj. unfold size in Hj. simpl in Hj. lia.
Defined.

(** X12. What the loop of [isClockwise] computes: on the empty vector
    false; otherwise whether the [float] sum, from [0.0] on and in vector
    order, of the edge terms of each vertex with its successor, the last
    vertex with the first, is positive.  No access is out of range. *)
Theorem isClockwise_shoelace first rest :
  isClockwise [] = Ok false /\
  isClockwise (first :: rest) =
  Ok (F32.gt (fold_left F32.add
                (zip_with edge_term (first :: rest) (rest ++ [first])) F32.zero)
             F32.zero).
Proof.
  split; [reflexivity |].
  rewrite isClockwise_fsum, shoelace_terms_zip. reflexivity.
Qed.

(** X13. [isClockwise] returns false on every vector of fewer than three
    vertices: the sum is zero, or NaN. *)
Theorem isClockwise_short vertices :
  (length vertices < 3)%nat -> isClockwise vertices = Ok false.
Proof.
  intros Hlen. rewrite isClockwise_fsum. f_equal. apply null_not_gt.
  destruct vertices as [| a [| b [| c rest]]]; simpl in Hlen; try lia.
  - reflexivity.
  - rewrite shoelace_terms_zip. unfold fsum. simpl zip_with. cbn [fold_left].
    apply add_null; [reflexivity |]. apply mul_null_l, sub_self.
  - rewrite shoelace_terms_zip. unfold fsum. simpl zip_with. cbn [fold_left].
    rewrite (null_same _ (F32.add (edge_term a b) (F32.opp (edge_term a b)))).
    + apply add_opp_self.
    + rewrite add_zero_l, (edge_swap a b). reflexivity.
Qed.

Lemma isClockwise_short_segment : isClockwise [pt 5 7; pt (-3) 2] = Ok false.
Proof. apply isClockwise_short. simpl. lia. Defined.

(** X14. [isClockwise] returns false on every vector that holds a vertex
    with a NaN coordinate. *)
Theorem isClockwise_nan vertices v :
  v ∈ vertices -> has_nan v = true -> isClockwise vertices = Ok false.
Proof.
  intros Hv Hnan. rewrite isClockwise_fsum. f_equal.
  apply nan_not_gt, (fsum_nan _ v); assumption.
Qed.

Lemma isClockwise_nan_poisoned : isClockwise poisoned = Ok false.
Proof.
  apply (isClockwise_nan poisoned (mkVec2f S754_nan (F32.of_Z 2))); [| reflexivity].
  apply list_elem_of_lookup. exists 2%nat. reflexivity.
Defined.

(** X15. The scan clips the first ear: on a non-empty vector it returns
    a triangle and a shorter vector exactly when some index is convex and
    an ear; the index clipped is the smallest such, the triangle is made
    of its cyclic neighbours and itself, and the vector returned is the
    vector without that index.  It returns without an ear exactly when no
    index is convex and an ear. *)
Theorem scan_first_ear vertices :
  0 < size vertices ->
  (forall t vertices',
      scan vertices (length vertices) 0 = Ok (Some (t, vertices')) <->
      exists i, 0 <= i < size vertices /\ ear_tip vertices i t /\
                (forall i' t', 0 <= i' < i -> ~ ear_tip vertices i' t') /\
                vertices' = delete (Z.to_nat i) vertices) /\
  (scan vertices (length vertices) 0 = Ok None <->
   forall i t, 0 <= i < size vertices -> ~ ear_tip vertices i t).
Proof.
  intros Hne. split; [| apply scan_None_iff, Hne].
  intros t vertices'. split; [apply scan_found, Hne |].
  intros (i & Hi & Htip & Hfirst & ->).
  destruct (scan_spec vertices Hne (length vertices) 0)
    as [[_ Hnone] | (i0 & t0 & Hi0 & Htip0 & Hfirst0 & ->)]; [lia | reflexivity | |].
  - destruct (Hnone i t Hi Htip).
  - assert (i0 = i) as ->.
    { destruct (Z.lt_trichotomy i0 i) as [Hlt | [-> | Hgt]]; [| reflexivity |].
      - destruct (Hfirst i0 t0 ltac:(lia) Htip0).
      - destruct (Hfirst0 i t ltac:(lia) Htip). }
    rewrite (ear_tip_unique _ _ _ _ Htip0 Htip). reflexivity.
Qed.

Lemma scan_first_ear_square :
  exists i, 0 <= i < size (reverse square) /\
            ear_tip (reverse square) i (pt 0 0, pt 0 2, pt 2 2) /\
            (forall i' t', 0 <= i' < i -> ~ ear_tip (reverse square) i' t') /\
            [pt 2 2; pt 2 0; pt 0 0] = delete (Z.to_nat i) (reverse square).
Proof.
  apply (proj1 (scan_first_ear (reverse square) eq_refl)). vm_compute. reflexivity.
Defined.

(** X16. The vector that [triangulate] leaves is a subsequence of its
    input: of the input itself when [isClockwise] held, of the reversed
    input when not.  The vertices left keep their relative order. *)
Theorem leftover_sublist vertices out vertices' :
  triangulate vertices = Ok (out, vertices') ->
  exists cw, isClockwise vertices = Ok cw /\
             vertices' `sublist_of` (if cw then vertices else reverse vertices).
Proof.
  intros Hout.
  destruct (clipping_run vertices) as (cw & vs' & ts & e & Hcw & Hrun & Hreach & _).
  rewrite (triangulate_unfold _ _ _ _ Hrun) in Hout.
  destruct (at_ LastTriangle vs' 0) as [v0 | |]; try discriminate.
  destruct (at_ LastTriangle vs' 1) as [v1 | |]; try discriminate.
  destruct (at_ LastTriangle vs' 2) as [v2 | |]; try discriminate.
  simpl in Hout. injection Hout as _ <-.
  exists cw. split; [exact Hcw |].
  apply clips_sublist in Hreach. simpl in Hreach. unfold oriented in Hreach.
  destruct cw; exact Hreach.
Qed.

Lemma leftover_sublist_spur :
  exists cw, isClockwise spur = Ok cw /\
             [pt 1 0; pt 3 0; pt 2 0; pt 0 0] `sublist_of`
               (if cw then spur else reverse spur).
Proof.
  apply (leftover_sublist spur [(pt 0 0, pt 0 1, pt 1 0); (pt 1 0, pt 3 0, pt 2 0)]).
  vm_compute. reflexivity.
Defined.

(** X17. Every triangle that [triangulate] returns before the last one
    passed [isConvex] when it was clipped: its [float] cross product is
    positive.  The last one is the first three vertices of the vector
    left, whatever their orientation. *)
Theorem clipped_triangles_convex vertices out vertices' :
  triangulate vertices = Ok (out, vertices') ->
  exists clipped a b c rest,
    vertices' = a :: b :: c :: rest /\
    out = clipped ++ [(a, b, c)] /\
    Forall (fun t : Triangle => isConvex t.1.1 t.1.2 t.2 = true) clipped.
Proof.
  intros Hout.
  destruct (clipping_run vertices) as (cw & vs' & ts & e & Hcw & Hrun & Hreach & _).
  rewrite (triangulate_unfold _ _ _ _ Hrun) in Hout.
  destruct vs' as [| a [| b [| c rest]]]; try discriminate.
  simpl in Hout. injection Hout as <- <-.
  apply clips_convex in Hreach as (new & Hnew & Hall). simpl in Hnew. subst ts.
  exists new, a, b, c, rest. auto.
Qed.

Lemma clipped_triangles_convex_demo :
  exists clipped a b c rest,
    [pt (-1) (-1); pt 0 0; pt 3 (-1)] = a :: b :: c :: rest /\
    [(pt (-2) 1, pt 1 1, pt 0 0); (pt (-1) (-1), pt (-2) 1, pt 0 0);
     (pt (-1) (-1), pt 0 0, pt 3 (-1))] = clipped ++ [(a, b, c)] /\
    Forall (fun t : Triangle => isConvex t.1.1 t.1.2 t.2 = true) clipped.
Proof. apply (clipped_triangles_convex demo). vm_compute. reflexivity. Defined.

(** X18. The number of triangles tells whether the clipping was
    complete: on [n >= 3] vertices [triangulate] returns between [1] and
    [n - 2] triangles, exactly [n - 2] when the loop was left by its
    condition and fewer when it was left by the no-ear break. *)
Theorem count_tells_completeness vertices :
  (3 <= length vertices)%nat ->
  exists vertices' triangles e out,
    clipping vertices = Ok (vertices', triangles, e) /\
    triangulate vertices = Ok (out, vertices') /\
    (1 <= length out <= length vertices - 2)%nat /\
    (e = SizeReached <-> length out = (length vertices - 2)%nat) /\
    (e = NoEarFound <-> (length out < length vertices - 2)%nat).
Proof.
  intros Hn.
  destruct (clipping_run vertices) as (cw & vs' & ts & e & Hcw & Hrun & Hreach & Hexit).
  apply clips_length in Hreach as (Hsum & Hle & Hmin). simpl in *.
  rewrite length_oriented in *. specialize (Hmin Hn).
  destruct (at_least_three vs' Hmin) as (a & b & c & rest & ->).
  exists (a :: b :: c :: rest), ts, e, (ts ++ [(a, b, c)]).
  split; [exact Hrun |]. split; [eapply triangulate_last, Hrun |].
  rewrite length_app. unfold size in Hexit. simpl in *.
  destruct e; [| destruct Hexit as [Hexit _]];
    (split; [lia |]); split; split; intros H; try discriminate; try reflexivity; lia.
Qed.

Lemma count_tells_completeness_spur :
  exists vertices' triangles e out,
    clipping spur = Ok (vertices', triangles, e) /\
    triangulate spur = Ok (out, vertices') /\
    (1 <= length out <= length spur - 2)%nat /\
    (e = SizeReached <-> length out = (length spur - 2)%nat) /\
    (e = NoEarFound <-> (length out < length spur - 2)%nat).
Proof. apply (count_tells_completeness spur). simpl. lia. Defined.

(** X19. On exactly three vertices [triangulate] does not enter its loop:
    it returns the one triangle of the three vertices, in the order given
    when [isClockwise] holds and in the reversed order when not, and
    leaves them in that order. *)
Theorem triangulate_three (a b c : Vec2f) :
  exists cw,
    isClockwise [a; b; c] = Ok cw /\
    triangulate [a; b; c] =
    Ok (if cw then ([(a, b, c)], [a; b; c]) else ([(c, b, a)], [c; b; a])).
Proof.
  destruct (isClockwise_Ok [a; b; c]) as [cw Hcw].
  exists cw. split; [exact Hcw |].
  unfold triangulate, clipping. rewrite Hcw. destruct cw; reflexivity.
Qed.

(** X20. Orientation is normalised: when [isClockwise] tells a vector from
    its reversal, false on the one and true on the other, [triangulate]
    returns the same triangles and leaves the same vector on both. *)
Theorem triangulate_reverse vertices :
  isClockwise vertices = Ok false ->
  isClockwise (reverse vertices) = Ok true ->
  triangulate vertices = triangulate (reverse vertices).
Proof.
  intros Hccw Hcw. unfold triangulate, clipping. rewrite Hccw, Hcw. reflexivity.
Qed.

Lemma triangulate_reverse_square : triangulate square = triangulate (reverse square).
Proof. apply triangulate_reverse; vm_compute; reflexivity. Defined.

(** X21. One NaN coordinate stops the clipping: on more than three
    vertices, one of them with a NaN coordinate, [triangulate] reverses
    the vector, clips nothing, and returns the one triangle of the first
    three vertices of the reversed vector. *)
Theorem triangulate_nan vertices v :
  (3 < length vertices)%nat -> v ∈ vertices -> has_nan v = true ->
  exists a b c rest,
    reverse vertices = a :: b :: c :: rest /\
    triangulate vertices = Ok ([(a, b, c)], reverse vertices).
Proof.
  intros Hlen Hv Hnan.
  assert (Hcw : isClockwise vertices = Ok false).
  { rewrite isClockwise_fsum. f_equal. apply nan_not_gt, (fsum_nan _ v); assumption. }
  assert (Hclip : clipping vertices = Ok (reverse vertices, [], NoEarFound)).
  { rewrite (clipping_unfold _ _ Hcw). unfold oriented. simpl negb. cbn iota.
    rewrite length_reverse.
    destruct (length vertices) as [| fuel] eqn:Hfuel; [lia |].
    apply clip_no_ear.
    - unfold size. rewrite length_reverse. lia.
    - apply (scan_nan _ v); [apply elem_of_reverse, Hv | exact Hnan]. }
  destruct (at_least_three (reverse vertices)) as (a & b & c & rest & Hrev);
    [rewrite length_reverse; lia |].
  exists a, b, c, rest. split; [exact Hrev |].
  rewrite Hrev in Hclip |- *. apply (triangulate_last _ _ _ _ _ _ _ Hclip).
Qed.

Lemma triangulate_nan_poisoned :
  triangulate poisoned =
  Ok ([(pt 2 0, pt 2 2, mkVec2f S754_nan (F32.of_Z 2))], reverse poisoned).
Proof.
  destruct (triangulate_nan poisoned (mkVec2f S754_nan (F32.of_Z 2)))
    as (a & b & c & rest & Hrev & Hout).
  - simpl. lia.
  - apply list_elem_of_lookup. exists 2%nat. reflexivity.
  - reflexivity.
  - vm_compute in Hrev. injection Hrev as <- <- <- _. exact Hout.
Defined.

(** X22. The neighbour indices of the scan are the cyclic neighbours
    when the size fits an [int]: the conversion of [i - 1 = -1] to
    [size_t] at [i = 0] and the addition of the size wrap around to
    [size - 1].  From three vertices on the three indices differ. *)
Theorem neighbours_cyclic vertices i :
  0 <= i < size vertices -> size vertices <= INT_MAX ->
  prevIndex_of vertices i = (if i =? 0 then size vertices - 1 else i - 1) /\
  nextIndex_of vertices i = (if i + 1 =? size vertices then 0 else i + 1) /\
  nextIndex_of vertices (prevIndex_of vertices i) = i /\
  (3 <= size vertices ->
   prevIndex_of vertices i <> i /\ nextIndex_of vertices i <> i /\
   prevIndex_of vertices i <> nextIndex_of vertices i).
Proof.
  intros Hi Hsize.
  pose proof (prevIndex_cyclic vertices i Hi Hsize) as Hprev.
  pose proof (nextIndex_cyclic vertices i Hi) as Hnext.
  assert (Hin : 0 <= prevIndex_of vertices i < size vertices)
    by (apply prevIndex_in_range; lia).
  pose proof (nextIndex_cyclic vertices _ Hin) as Hback.
  split; [exact Hprev |]. split; [exact Hnext |].
  rewrite Hback, Hprev, Hnext. clear Hback Hprev Hnext Hin.
  destruct (Z.eqb_spec i 0), (Z.eqb_spec (i + 1) (size vertices));
    split; try (intros H3; repeat split); 
    repeat match goal with |- context [?a =? ?b] => destruct (Z.eqb_spec a b) end;
    lia.
Qed.

Lemma neighbours_cyclic_demo :
  prevIndex_of demo 0 = 4 /\ nextIndex_of demo 0 = 1 /\
  nextIndex_of demo (prevIndex_of demo 0) = 0 /\
  (3 <= size demo ->
   prevIndex_of demo 0 <> 0 /\ nextIndex_of demo 0 <> 0 /\
   prevIndex_of demo 0 <> nextIndex_of demo 0).
Proof.
  apply (neighbours_cyclic demo 0); [vm_compute; split; congruence | vm_compute; congruence].
Defined.

(** X23. No vertex is lost or made up: the input is a permutation of the
    vertices left in the vector together with the middle points of the
    clipped triangles, the triangles returned before the last.  Every
    input vertex is either left or the tip of exactly one clipped ear. *)
Theorem vertices_accounted vertices out vertices' :
  triangulate vertices = Ok (out, vertices') ->
  exists clipped final,
    out = clipped ++ [final] /\
    vertices ≡ₚ vertices' ++ ((fun t : Triangle => t.1.2) <$> clipped).
Proof.
  intros Hout.
  destruct (clipping_run vertices) as (cw & vs' & ts & e & Hcw & Hrun & Hreach & _).
  rewrite (triangulate_unfold _ _ _ _ Hrun) in Hout.
  destruct vs' as [| a [| b [| c rest]]]; try discriminate.
  simpl in Hout. injection Hout as <- <-.
  apply clips_tips in Hreach as (new & Hnew & Hperm). simpl in Hnew, Hperm. subst ts.
  exists new, (a, b, c). split; [reflexivity |].
  rewrite <- Hperm. unfold oriented.
  destruct cw; simpl; [reflexivity | symmetry; apply reverse_Permutation].
Qed.

Lemma vertices_accounted_demo :
  exists clipped final,
    [(pt (-2) 1, pt 1 1, pt 0 0); (pt (-1) (-1), pt (-2) 1, pt 0 0);
     (pt (-1) (-1), pt 0 0, pt 3 (-1))] = clipped ++ [final] /\
    demo ≡ₚ [pt (-1) (-1); pt 0 0; pt 3 (-1)] ++
             ((fun t : Triangle => t.1.2) <$> clipped).
Proof. apply (vertices_accounted demo). vm_compute. reflexivity. Defined.
